(** * Flower: virtual client engine setup, low-level server app, docker matrix

    A shallow embedding of three source files of the repository:
    - [src/py/flwr/server/superlink/fleet/vce/vce_api.py]
    - [examples/advanced-pytorch/pytorch-example-low-level/pytorch_example_low_level/server_app.py]
    - [dev/build-docker-image-matrix.py]

    Python integers are [Z], Python strings are [string], Python dicts are
    insertion-ordered association lists with unique keys ([PyDict]), and
    Python objects that are mutated through aliases live in an explicit
    heap addressed by allocation index. *)

From Stdlib Require Import ZArith QArith Lia Ascii String DecimalString.
From stdpp Require Import base list strings.

Local Open Scope Z_scope.

(** ** Python dictionaries

    A [dict] keeps its keys in insertion order; assigning to a key that is
    already present replaces the value where it stands, assigning to a new
    key appends the entry. *)
Module PyDict.
Abbreviation dict K V := (list (K * V)).

Section dict.
Context {K V : Type} `{EqDecision K}.

Definition empty : dict K V := [].

Fixpoint get (k : K) (d : dict K V) : option V :=
  match d with
  | [] => None
  | (k', v) :: d' => if decide (k = k') then Some v else get k d'
  end.

Fixpoint set (k : K) (v : V) (d : dict K V) : dict K V :=
  match d with
  | [] => [(k, v)]
  | (k', v') :: d' =>
      if decide (k = k') then (k', v) :: d' else (k', v') :: set k v d'
  end.

Definition keys (d : dict K V) : list K := d.*1.
Definition values (d : dict K V) : list V := d.*2.
Definition len (d : dict K V) : nat := length d.
End dict.
End PyDict.

(** Python's [range(n)] for an integer [n]: empty when [n <= 0]. *)
Definition range (n : Z) : list Z := seqZ 0 n.

(** The exceptions the embedded code can raise. *)
Inductive PyError : Type :=
| IndexError
| KeyError
| ValueError
| AttributeError
| JSONDecodeError.

(** ** The object heap

    Objects that are reached through more than one name are stored in a
    heap; a reference is the index at which the object was allocated. *)
Module Heap.
Definition loc := nat.

Abbreviation heap A := (list A).

Definition alloc {A} (h : heap A) (obj : A) : loc * heap A :=
  (length h, h ++ [obj]).

Definition read {A} (h : heap A) (l : loc) : option A := h !! l.

Definition write {A} (h : heap A) (l : loc) (obj : A) : heap A :=
  <[l := obj]> h.
End Heap.

(** ** [vce_api.py] *)
Module VceApi.

(** [NodeToPartitionMapping = Dict[int, int]] *)
Abbreviation NodeToPartitionMapping := (PyDict.dict Z Z).

Section vce.
(** The superlink state object handed out by [state_factory.state()];
    [state.create_node()] returns a node id and updates the state. *)
Variable State : Type.
Variable create_node : State → Z * State.
(** [flwr.client.node_state.NodeState]: the class is imported, only its
    constructor is used here; [NodeState_new] is the object it builds. *)
Variable NodeState : Type.
Variable NodeState_new : NodeState.
(** [json.loads] of the Python standard library: [None] stands for
    raising [json.JSONDecodeError]. *)
Variable JSON : Type.
Variable json_loads : string → option JSON.

(** The body of [for i in range(num_nodes)] in [_register_nodes]. *)
Fixpoint register_loop (idxs : list Z) (state : State)
    (nodes_mapping : NodeToPartitionMapping)
    : NodeToPartitionMapping * State :=
  match idxs with
  | [] => (nodes_mapping, state)
  | i :: idxs' =>
      let '(node_id, state') := create_node state in
      register_loop idxs' state' (PyDict.set node_id i nodes_mapping)
  end.

(** [_register_nodes(num_nodes, state_factory)]; the [log] call only
    reads [len(nodes_mapping)]. *)
Definition _register_nodes (num_nodes : Z) (state : State)
    : NodeToPartitionMapping * State :=
  register_loop (range num_nodes) state PyDict.empty.

(** [for node_id in nodes_mapping: node_states[node_id] = NodeState()] *)
Fixpoint node_states_loop (node_ids : list Z)
    (node_states : PyDict.dict Z Heap.loc) (h : Heap.heap NodeState)
    : PyDict.dict Z Heap.loc * Heap.heap NodeState :=
  match node_ids with
  | [] => (node_states, h)
  | node_id :: node_ids' =>
      let '(obj, h') := Heap.alloc h NodeState_new in
      node_states_loop node_ids' (PyDict.set node_id obj node_states) h'
  end.

(** The local variables of [start_vce] once the backend config is loaded. *)
Record Locals := {
  nodes_mapping : NodeToPartitionMapping;
  node_states : PyDict.dict Z Heap.loc;
  backend_config : JSON
}.

(** Lines 52-60 of [start_vce]: registration and the [node_states] dict. *)
Definition start_vce_setup (num_supernodes : Z) (state : State)
    (h : Heap.heap NodeState)
    : NodeToPartitionMapping * PyDict.dict Z Heap.loc
      * State * Heap.heap NodeState :=
  let '(nodes_mapping, state') := _register_nodes num_supernodes state in
  let '(node_states, h') :=
    node_states_loop (PyDict.keys nodes_mapping) PyDict.empty h in
  (nodes_mapping, node_states, state', h').

(** [start_vce] up to the definition of [_load] (the part of the function
    present in the source file).  The result pairs the outcome, an
    exception or the local variables, with the state and the heap as the
    function leaves them. *)
Definition start_vce (num_supernodes : Z) (client_app_str backend_str
    backend_config_json_str : string) (state : State) (working_dir : string)
    (h : Heap.heap NodeState)
    : (PyError + Locals) * State * Heap.heap NodeState :=
  let '(nodes_mapping, node_states, state', h') :=
    start_vce_setup num_supernodes state h in
  match json_loads backend_config_json_str with
  | None => (inl JSONDecodeError, state', h')
  | Some cfg =>
      (inr {| nodes_mapping := nodes_mapping;
              node_states := node_states;
              backend_config := cfg |}, state', h')
  end.

(** The identifiers returned by [n] successive [create_node] calls. *)
Fixpoint created_ids (n : nat) (state : State) : list Z :=
  match n with
  | O => []
  | S n' => let '(node_id, state') := create_node state in
            node_id :: created_ids n' state'
  end.

(** The state after [n] successive [create_node] calls. *)
Fixpoint state_after (n : nat) (state : State) : State :=
  match n with
  | O => state
  | S n' => state_after n' (create_node state).2
  end.
End vce.
End VceApi.

(** ** The node registry *)
Module NodeRegistry.

(** Modelled from the spec: the node registry behind
    [state.create_node()] is not among the source files.  A node is
    [Node{node_id, registered_at, online}]. *)
Record Node := {
  node_id : Z;
  registered_at : Z;
  online : bool
}.

Record Registry := {
  next_id : Z;
  clock : Z;
  nodes : PyDict.dict Z Node
}.

Definition empty : Registry :=
  {| next_id := 0; clock := 0; nodes := PyDict.empty |}.

(** Modelled from the spec: the superlink state's [create_node] is not
    among the source files.  [register() -> node_id] allocates a fresh
    identifier from a monotonic counter and inserts [Node{online=true}]. *)
Definition register (reg : Registry) : Z * Registry :=
  let id := next_id reg in
  (id, {| next_id := id + 1;
          clock := clock reg + 1;
          nodes := PyDict.set id
                     {| node_id := id; registered_at := clock reg;
                        online := true |} (nodes reg) |}).

Definition registered (reg : Registry) (id : Z) : Prop :=
  is_Some (PyDict.get id (nodes reg)).
End NodeRegistry.

(** ** Exceptions as a monad

    A computation that may raise returns [PyError + A]; [x ← m; k] stops
    at the first exception. *)
#[global] Instance py_ret : MRet (sum PyError) := λ A x, inr x.
#[global] Instance py_bind : MBind (sum PyError) :=
  λ A B f m, match m with inl e => inl e | inr a => f a end.

Definition or_raise {A} (e : PyError) (o : option A) : PyError + A :=
  match o with Some a => inr a | None => inl e end.

(** Python's [str] on an integer. *)
Definition str (z : Z) : string := NilZero.string_of_int (Z.to_int z).

(** ** [server_app.py] *)
Module ServerApp.

(** The array operations the app applies to model parameters:
    [np.add(a, b)] and [a / k] for an integer [k]. *)
Class TensorOps (T : Type) := {
  np_add : T → T → T;
  true_div : T → Z → T
}.

Inductive MessageType := TRAIN | EVALUATE | QUERY.

Inductive Endpoint :=
| Coordinator
| NodeEndpoint (node_id : Z).

(** Modelled from the spec: [flwr.common.Message] and its metadata are
    imported, not defined in the source files.  A task carries
    [run_id], [group_id], [src], [dst], [kind] and [ttl]; a reply carries
    either a result payload or an error marker. *)
Record Metadata := {
  run_id : Z;
  src_node_id : Endpoint;
  dst_node_id : Z;
  group_id : string;
  message_type : MessageType;
  ttl : option Z
}.

(** [ConfigsRecord]: a dict of scalars; the learning rate is a rational. *)
Abbreviation ConfigsRecord := (PyDict.dict string Q).

(** A state dict: parameter names bound to arrays of type [T]. *)
Abbreviation StateDict T := (PyDict.dict string T).

Section records.
(** [ParametersRecord] is imported; the app only converts it from and to
    state dicts with the helpers of [utils]. *)
Context {ParametersRecord : Type}.

Record RecordSet := {
  configs_records : PyDict.dict string ConfigsRecord;
  parameters_records : PyDict.dict string ParametersRecord
}.

Record Message := {
  metadata : Metadata;
  content : option RecordSet;
  error : option Z
}.

(** [msg.has_error()] *)
Definition has_error (msg : Message) : bool :=
  match error msg with Some _ => true | None => false end.

(** [msg.content] raises when the message carries no content. *)
Definition get_content (msg : Message) : PyError + RecordSet :=
  or_raise ValueError (content msg).

(** Modelled from the spec: [Driver.create_message] is not among the
    source files.  Like [create_task(run_id, group_id, dst, kind, payload,
    ttl)] it records the destination, the group and the kind it is given;
    the coordinator is the source. *)
Definition create_message (driver_run_id : Z) (content : RecordSet)
    (message_type : MessageType) (dst_node_id : Z) (group_id : string)
    : Message :=
  {| metadata := {| run_id := driver_run_id;
                    src_node_id := Coordinator;
                    dst_node_id := dst_node_id;
                    group_id := group_id;
                    message_type := message_type;
                    ttl := None |};
     content := Some content;
     error := None |}.
End records.
Global Arguments RecordSet : clear implicits.
Global Arguments Message : clear implicits.

Section app.
Context {T ParametersRecord : Type} `{TensorOps T}.
(** The helpers of [pytorch_example_low_level.utils]; each call of
    [parameters_record_to_state_dict] builds a new dict object. *)
Variable parameters_record_to_state_dict : ParametersRecord → StateDict T.
Variable state_dict_to_parameters_record : StateDict T → ParametersRecord.

Abbreviation Msg := (Message ParametersRecord).
Abbreviation SDHeap := (Heap.heap (StateDict T)).

(** The dict object a reference denotes. *)
Definition deref (h : SDHeap) (d : Heap.loc) : StateDict T :=
  default PyDict.empty (Heap.read h d).

(** [for msg in messages: ...] of [aggregate_parameters_from_messages]:
    the state dicts of the error-free messages, each a new object. *)
Fixpoint collect_state_dicts (messages : list Msg)
    (state_dict_list : list Heap.loc) (h : SDHeap)
    : PyError + (list Heap.loc * SDHeap) :=
  match messages with
  | [] => mret (state_dict_list, h)
  | msg :: messages' =>
      if has_error msg then collect_state_dicts messages' state_dict_list h
      else
        c ← get_content msg;
        state_dict_as_p_record ←
          or_raise KeyError
            (PyDict.get "updated_model_dict" (parameters_records c));
        let '(obj, h') :=
          Heap.alloc h
            (parameters_record_to_state_dict state_dict_as_p_record) in
        collect_state_dicts messages' (state_dict_list ++ [obj]) h'
  end.

(** [for key, value in d.items(): new_global_dict[key] = np.add(...)].
    The items are read from the dict object as it is when the iteration
    reaches them: [d] and [new_global_dict] may be the same object. *)
Fixpoint add_items (positions : list nat) (d new_global_dict : Heap.loc)
    (h : SDHeap) : PyError + SDHeap :=
  match positions with
  | [] => mret h
  | i :: positions' =>
      match deref h d !! i with
      | None => mret h
      | Some (key, value) =>
          cur ← or_raise KeyError (PyDict.get key (deref h new_global_dict));
          add_items positions' d new_global_dict
            (Heap.write h new_global_dict
               (PyDict.set key (np_add cur value) (deref h new_global_dict)))
      end
  end.

(** [for d in state_dict_list: ...] *)
Fixpoint add_state_dicts (ds : list Heap.loc) (new_global_dict : Heap.loc)
    (h : SDHeap) : PyError + SDHeap :=
  match ds with
  | [] => mret h
  | d :: ds' =>
      h' ← add_items (seq 0 (PyDict.len (deref h d))) d new_global_dict h;
      add_state_dicts ds' new_global_dict h'
  end.

(** [for key in new_global_dict: new_global_dict[key] = .../len(...)] *)
Fixpoint average_items (positions : list nat) (new_global_dict : Heap.loc)
    (n : Z) (h : SDHeap) : PyError + SDHeap :=
  match positions with
  | [] => mret h
  | i :: positions' =>
      match deref h new_global_dict !! i with
      | None => mret h
      | Some (key, _) =>
          cur ← or_raise KeyError (PyDict.get key (deref h new_global_dict));
          average_items positions' new_global_dict n
            (Heap.write h new_global_dict
               (PyDict.set key (true_div cur n) (deref h new_global_dict)))
      end
  end.

Definition aggregate_parameters_from_messages (messages : list Msg)
    : PyError + StateDict T :=
  '(state_dict_list, h) ← collect_state_dicts messages [] [];
  new_global_dict ← or_raise IndexError (state_dict_list !! 0%nat);
  h ← add_state_dicts state_dict_list new_global_dict h;
  h ← average_items (seq 0 (PyDict.len (deref h new_global_dict)))
        new_global_dict (Z.of_nat (length state_dict_list)) h;
  mret (deref h new_global_dict).

(** The messages the first loop does not skip. *)
Definition error_free (messages : list Msg) : list Msg :=
  filter (λ msg, has_error msg = false) messages.

(** The arithmetic mean of [k] values: their sum divided by [k]. *)
Definition arithmetic_mean (values : list T) : option T :=
  match values with
  | [] => None
  | v :: values' =>
      Some (true_div (foldl np_add v values') (Z.of_nat (length values)))
  end.

(** The state dict that holds, for each key of the first of the given
    state dicts, the mean of the values the dicts have for the key. *)
Definition mean_state_dict (state_dicts : list (StateDict T))
    : option (StateDict T) :=
  match state_dicts with
  | [] => None
  | first :: _ =>
      mapM (λ '(key, _),
              values ← mapM (PyDict.get key) state_dicts;
              mean ← arithmetic_mean values;
              Some (key, mean)) first
  end.

(** What one pass of the accumulation loop over the dict [d] leaves in
    [new_global_dict]: each of its keys that [d] holds has the value of
    [d] added. *)
Definition add_dict (d new_global_dict : StateDict T) : StateDict T :=
  (λ kv, (kv.1, match PyDict.get kv.1 d with
                | Some value => np_add kv.2 value
                | None => kv.2
                end)) <$> new_global_dict.

(** What the averaging loop leaves in [new_global_dict]. *)
Definition scale_dict (n : Z) (new_global_dict : StateDict T) : StateDict T :=
  (λ kv, (kv.1, true_div kv.2 n)) <$> new_global_dict.

(** The value the accumulation and the division leave for a key whose
    value in the first state dict is [value0]: the first value added to
    itself, the values the other state dicts have for the key added in
    order, the sum divided by the number of state dicts. *)
Definition accumulated (key : string) (value0 : T)
    (rest : list (StateDict T)) : T :=
  true_div
    (foldl (λ acc sd, match PyDict.get key sd with
                      | Some value => np_add acc value
                      | None => acc
                      end) (np_add value0 value0) rest)
    (Z.of_nat (S (length rest))).

(** [msg] is an error-free reply whose ["updated_model_dict"] converts to
    the state dict [sd]. *)
Definition carries (msg : Msg) (sd : StateDict T) : Prop :=
  has_error msg = false ∧
  ∃ c p_record,
    content msg = Some c ∧
    PyDict.get "updated_model_dict" (parameters_records c) = Some p_record ∧
    parameters_record_to_state_dict p_record = sd.

(** [for node_id in node_ids: messages.append(driver.create_message(...))] *)
Fixpoint construct_loop (driver_run_id : Z)
    (recordset : RecordSet ParametersRecord) (msg_type : MessageType)
    (server_round : Z) (node_ids : list Z) (messages : list Msg)
    : list Msg :=
  match node_ids with
  | [] => messages
  | node_id :: node_ids' =>
      let message :=
        create_message driver_run_id recordset msg_type node_id
          (str server_round) in
      construct_loop driver_run_id recordset msg_type server_round node_ids'
        (messages ++ [message])
  end.

Definition construct_messages (global_model : StateDict T)
    (driver_run_id : Z) (node_ids : list Z) (msg_type : MessageType)
    (server_round : Z) : list Msg :=
  let p_record := state_dict_to_parameters_record global_model in
  let lr := if server_round <? 10 then (1 # 10)%Q else (1 # 20)%Q in
  let c_record : ConfigsRecord := [("lr", lr)] in
  let recordset :=
    {| configs_records := [("config", c_record)];
       parameters_records := [("global_model_record", p_record)] |} in
  construct_loop driver_run_id recordset msg_type server_round node_ids [].

(** *** The round loop of [main]

    The calls [main] makes in a round are recorded, in program order, in a
    trace; every entry carries the [server_round] of the iteration that
    made the call. *)
Inductive Step :=
| LogStart
| GetNodeIds
| ConstructMessages
| SendAndReceiveCall
| SendAndReceiveReturn
| LogReceived (replies messages : nat)
| Aggregate
| LoadStateDict
| CentralTest.

Definition Event := (Z * Step)%type.

(** The trace entries of one round: the calls up to the aggregation and,
    when the aggregation returned, the model update and the central
    evaluation. *)
Definition round_events (server_round : Z) (replies messages : nat)
    (completed : bool) : list Event :=
  [ (server_round, LogStart); (server_round, GetNodeIds);
    (server_round, ConstructMessages); (server_round, SendAndReceiveCall);
    (server_round, SendAndReceiveReturn);
    (server_round, LogReceived replies messages);
    (server_round, Aggregate) ]
  ++ (if completed
      then [(server_round, LoadStateDict); (server_round, CentralTest)]
      else []).

(** The driver handed to [main]: its run, the node ids it reports and the
    rendezvous, each call possibly changing the driver. *)
Variable Driver : Type.
Variable driver_run_id : Driver → Z.
Variable get_node_ids : Driver → list Z * Driver.
Variable send_and_receive : Driver → list Msg → list Msg * Driver.

Record MainState := {
  driver : Driver;
  global_model : StateDict T;
  trace : list Event
}.

(** One iteration of [for server_round in range(num_rounds)]; the second
    component is the exception that ended it, if any. *)
Definition round_body (server_round : Z) (st : MainState)
    : MainState * option PyError :=
  let tr := trace st ++ [(server_round, LogStart)] in
  let tr := tr ++ [(server_round, GetNodeIds)] in
  let '(node_ids, drv) := get_node_ids (driver st) in
  let tr := tr ++ [(server_round, ConstructMessages)] in
  let messages :=
    construct_messages (global_model st) (driver_run_id drv) node_ids TRAIN
      server_round in
  let tr := tr ++ [(server_round, SendAndReceiveCall)] in
  let '(replies, drv) := send_and_receive drv messages in
  let tr := tr ++ [(server_round, SendAndReceiveReturn)] in
  let tr := tr ++ [(server_round, LogReceived (length replies)
                                   (length messages))] in
  let tr := tr ++ [(server_round, Aggregate)] in
  match aggregate_parameters_from_messages replies with
  | inl e =>
      ({| driver := drv; global_model := global_model st; trace := tr |},
       Some e)
  | inr updated_global_state_dict =>
      let tr := tr ++ [(server_round, LoadStateDict)] in
      let tr := tr ++ [(server_round, CentralTest)] in
      ({| driver := drv; global_model := updated_global_state_dict;
          trace := tr |}, None)
  end.

(** The messages and the replies of the round that starts in [st]. *)
Definition round_messages (server_round : Z) (st : MainState) : list Msg :=
  let nd := get_node_ids (driver st) in
  construct_messages (global_model st) (driver_run_id nd.2) nd.1 TRAIN
    server_round.

Definition round_replies (server_round : Z) (st : MainState)
    : list Msg * Driver :=
  send_and_receive (get_node_ids (driver st)).2
    (round_messages server_round st).

Fixpoint round_loop (rounds : list Z) (st : MainState)
    : MainState * option PyError :=
  match rounds with
  | [] => (st, None)
  | server_round :: rounds' =>
      match round_body server_round st with
      | (st', Some e) => (st', Some e)
      | (st', None) => round_loop rounds' st'
      end
  end.

(** [main(driver, context)] with [num_rounds] read from the run config
    and [net] the state dict of the initial [Net()]. *)
Definition main (drv : Driver) (num_rounds : Z) (net : StateDict T)
    : MainState * option PyError :=
  round_loop (range num_rounds)
    {| driver := drv; global_model := net; trace := [] |}.
End app.
End ServerApp.

(** ** A concrete instance of the server app

    Parameters with a single rational entry: [np.add] and [/] are exact,
    a [ParametersRecord] is the state dict itself. *)
Module ScalarApp.
Import ServerApp.

#[global] Instance Q_tensor : TensorOps Q := {|
  np_add a b := Qred (a + b);
  true_div a k := Qred (a / inject_Z k)
|}.

(** A reply that carries the state dict [sd] as ["updated_model_dict"]. *)
Definition reply (src : Z) (sd : StateDict Q) : Message (StateDict Q) :=
  {| metadata := {| run_id := 1; src_node_id := NodeEndpoint src;
                    dst_node_id := 0; group_id := "0";
                    message_type := TRAIN; ttl := None |};
     content := Some {| configs_records := [];
                        parameters_records := [("updated_model_dict", sd)] |};
     error := None |}.

(** A reply that carries an error. *)
Definition error_reply (src : Z) : Message (StateDict Q) :=
  {| metadata := {| run_id := 1; src_node_id := NodeEndpoint src;
                    dst_node_id := 0; group_id := "0";
                    message_type := TRAIN; ttl := None |};
     content := None;
     error := Some 1 |}.

Definition aggregate (messages : list (Message (StateDict Q)))
    : PyError + StateDict Q :=
  aggregate_parameters_from_messages id messages.

(** A driver whose two nodes train nothing: each sends back, as its
    updated model, the global model it was sent.  The driver state counts
    the rendezvous calls. *)
Definition echo (msg : Message (StateDict Q)) : Message (StateDict Q) :=
  match content msg with
  | Some c =>
      match PyDict.get "global_model_record" (parameters_records c) with
      | Some sd => reply (dst_node_id (metadata msg)) sd
      | None => error_reply (dst_node_id (metadata msg))
      end
  | None => error_reply (dst_node_id (metadata msg))
  end.

Definition echo_get_node_ids (drv : nat) : list Z * nat := ([1; 2], drv).

Definition echo_send_and_receive (drv : nat)
    (messages : list (Message (StateDict Q)))
    : list (Message (StateDict Q)) * nat :=
  (echo <$> messages, S drv).

Definition echo_main (num_rounds : Z) (net : StateDict Q)
    : MainState nat * option PyError :=
  main id id nat (λ _, 1) echo_get_node_ids echo_send_and_receive O
    num_rounds net.

(** An error-free reply without the ["updated_model_dict"] record. *)
Definition reply_without_record (src : Z) : Message (StateDict Q) :=
  {| metadata := {| run_id := 1; src_node_id := NodeEndpoint src;
                    dst_node_id := 0; group_id := "0";
                    message_type := TRAIN; ttl := None |};
     content := Some {| configs_records := []; parameters_records := [] |};
     error := None |}.

(** A driver whose nodes never reply. *)
Definition silent_send_and_receive (drv : nat)
    (messages : list (Message (StateDict Q)))
    : list (Message (StateDict Q)) * nat :=
  ([], S drv).
End ScalarApp.

(** ** [build-docker-image-matrix.py] *)
Module DockerMatrix.

#[local] Set Warnings "-register-all".
(** The values the filter lambdas produce, with Python's truth value:
    a bool is its own, a tuple is true unless empty. *)
Inductive PyVal :=
| PyBool (b : bool)
| PyTuple (items : list PyVal).
#[local] Set Warnings "register-all".

Definition truthy (v : PyVal) : bool :=
  match v with
  | PyBool b => b
  | PyTuple [] => false
  | PyTuple (_ :: _) => true
  end.

(** [a and b], [a or b]: the result is one of the operands. *)
Definition py_and (a b : PyVal) : PyVal := if truthy a then b else a.
Definition py_or (a b : PyVal) : PyVal := if truthy a then a else b.

(** [sep.join(items)] *)
Fixpoint join (sep : string) (items : list string) : string :=
  match items with
  | [] => ""
  | [x] => x
  | x :: items' => x +:+ sep +:+ join sep items'
  end.

Inductive DistroName := ALPINE | UBUNTU.

#[global] Instance DistroName_eq_dec : EqDecision DistroName.
Proof. solve_decision. Defined.

(** [DistroName.value] *)
Definition value (n : DistroName) : string :=
  match n with ALPINE => "alpine" | UBUNTU => "ubuntu" end.

Record Distro := {
  name : DistroName;
  version : string
}.

Definition LATEST_SUPPORTED_PYTHON_VERSION : string := "3.11".
Definition SUPPORTED_PYTHON_VERSIONS : list string :=
  ["3.9"; "3.10"; LATEST_SUPPORTED_PYTHON_VERSION].

Definition DOCKERFILE_ROOT : string := "src/docker".

(** The objects stored in [Variant.extra]. *)
Inductive Extra :=
| CpuVariant
| CudaVariant (version : string).

(** [isinstance(extra, CpuVariant)] *)
Definition is_CpuVariant (extra : option Extra) : bool :=
  match extra with Some CpuVariant => true | _ => false end.

(** [extra.version]: only a [CudaVariant] has the attribute. *)
Definition extra_version (extra : option Extra) : PyError + string :=
  match extra with
  | Some (CudaVariant v) => inr v
  | _ => inl AttributeError
  end.

Record Variant := {
  distro : Distro;
  file_dir_fn : Distro → option Extra → PyError + string;
  tag_fn : Distro → string → string → option Extra → PyError + string;
  extra : option Extra
}.

Definition file_dir (self : Variant) : PyError + string :=
  file_dir_fn self (distro self) (extra self).

Definition tag (self : Variant) (flwr_version python_version : string)
    : PyError + string :=
  tag_fn self (distro self) flwr_version python_version (extra self).

Definition LATEST_SUPPORTED_CUDA_VERSIONS : string := "12.4".
Definition CUDA_VERSIONS : list string :=
  ["11.2"; "11.8"; "12.1"; "12.3"; LATEST_SUPPORTED_CUDA_VERSIONS].

Definition cpu_file_dir (distro : Distro) (_ : option Extra)
    : PyError + string :=
  inr (DOCKERFILE_ROOT +:+ "/base/" +:+ value (name distro)).

Definition cpu_tag (distro : Distro) (flwr_version python_version : string)
    (_ : option Extra) : PyError + string :=
  inr (flwr_version +:+ "-py" +:+ python_version +:+ "-"
       +:+ value (name distro) +:+ version distro).

Definition UBUNTU_VARIANTS : list Variant :=
  [ {| distro := {| name := UBUNTU; version := "24.04" |};
       file_dir_fn := cpu_file_dir;
       tag_fn := cpu_tag;
       extra := Some CpuVariant |} ].

Definition ALPINE_VARIANTS : list Variant :=
  [ {| distro := {| name := ALPINE; version := "3.19" |};
       file_dir_fn := cpu_file_dir;
       tag_fn := cpu_tag;
       extra := Some CpuVariant |} ].

Definition CUDA_VARIANTS : list Variant :=
  (λ cuda_version,
     {| distro := {| name := UBUNTU; version := "24.04" |};
        file_dir_fn := λ distro _,
          inr (DOCKERFILE_ROOT +:+ "/base/" +:+ value (name distro)
               +:+ "-cuda");
        tag_fn := λ distro flwr_version python_version extra,
          cu ← extra_version extra;
          inr (flwr_version +:+ "-py" +:+ python_version +:+ "-cu" +:+ cu
               +:+ "-" +:+ value (name distro) +:+ version distro);
        extra := Some (CudaVariant cuda_version) |}) <$> CUDA_VERSIONS.

Record BaseImage := {
  variant : Variant;
  python_version : string;
  base_namespace_repository : string;
  base_file_dir : string;
  base_tag : string;
  flwr_version : string
}.

Definition new_base_image (flwr_version python_version : string)
    (variant : Variant) : PyError + BaseImage :=
  d ← file_dir variant;
  t ← tag variant flwr_version python_version;
  inr {| variant := variant;
         python_version := python_version;
         base_namespace_repository := "flwr/base";
         base_file_dir := d;
         base_tag := t;
         flwr_version := flwr_version |}.

(** A list comprehension whose element expression may raise. *)
Fixpoint comprehension {A B} (f : A → PyError + B) (l : list A)
    : PyError + list B :=
  match l with
  | [] => inr []
  | x :: l' => y ← f x; ys ← comprehension f l'; inr (y :: ys)
  end.

(** [[new_base_image(...) for variant in variants
                          for python_version in python_versions]] *)
Definition generate_base_images (flwr_version : string)
    (python_versions : list string) (variants : list Variant)
    : PyError + list BaseImage :=
  comprehension
    (λ '(variant, python_version),
       new_base_image flwr_version python_version variant)
    (variant ← variants;
     python_version ← python_versions;
     [(variant, python_version)]).

Record BinaryImage := {
  namespace_repository : string;
  binary_file_dir : string;
  base_image : string;
  tags : string
}.

Definition new_binary_image (name : string) (base_image : BaseImage)
    (tags_fn : option (BaseImage → list string)) : BinaryImage :=
  let tags :=
    match tags_fn with
    | Some f => [] ++ f base_image
    | None => []
    end in
  {| namespace_repository := "flwr/" +:+ name;
     binary_file_dir := DOCKERFILE_ROOT +:+ "/" +:+ name;
     base_image := base_tag base_image;
     tags := join (String "010"%char "") tags |}.

Definition generate_binary_images (name : string)
    (base_images : list BaseImage)
    (tags_fn : option (BaseImage → list string))
    (filter : option (BaseImage → PyVal)) : list BinaryImage :=
  let filter := default (λ _, PyBool true) filter in
  image ← base_images;
  if truthy (filter image) then [new_binary_image name image tags_fn] else [].

Definition tag_latest_alpine_with_flwr_version (image : BaseImage)
    : list string :=
  if bool_decide (name (distro (variant image)) = ALPINE)
     && bool_decide (python_version image = LATEST_SUPPORTED_PYTHON_VERSION)
  then [base_tag image; flwr_version image]
  else [base_tag image].

Definition tag_latest_ubuntu_with_flwr_version (image : BaseImage)
    : list string :=
  if bool_decide (name (distro (variant image)) = UBUNTU)
     && bool_decide (python_version image = LATEST_SUPPORTED_PYTHON_VERSION)
     && is_CpuVariant (extra (variant image))
  then [base_tag image; flwr_version image]
  else [base_tag image].

(** The filter lambdas of the main block, in source order. *)
Definition superlink_filter (image : BaseImage) : PyVal :=
  py_and
    (PyBool (bool_decide
               (python_version image = LATEST_SUPPORTED_PYTHON_VERSION)))
    (PyBool (is_CpuVariant (extra (variant image)))).

(** The first operand of [or] is written with a trailing comma inside the
    parentheses: it is a tuple of one element. *)
Definition supernode_filter (image : BaseImage) : PyVal :=
  py_or
    (PyTuple
       [py_and
          (PyBool (bool_decide (name (distro (variant image)) = UBUNTU)))
          (PyBool (is_CpuVariant (extra (variant image))))])
    (py_and
       (PyBool (bool_decide (name (distro (variant image)) = ALPINE)))
       (PyBool (bool_decide
                  (python_version image = LATEST_SUPPORTED_PYTHON_VERSION)))).

Definition ubuntu_filter (image : BaseImage) : PyVal :=
  PyBool (bool_decide (name (distro (variant image)) = UBUNTU)).

Definition ubuntu_cpu_filter (image : BaseImage) : PyVal :=
  py_and
    (PyBool (bool_decide (name (distro (variant image)) = UBUNTU)))
    (PyBool (is_CpuVariant (extra (variant image)))).

(** [base_images] of the main block. *)
Definition base_images (flwr_version : string) : PyError + list BaseImage :=
  ubuntu_base_images ←
    generate_base_images flwr_version SUPPORTED_PYTHON_VERSIONS
      UBUNTU_VARIANTS;
  alpine_base_images ←
    generate_base_images flwr_version [LATEST_SUPPORTED_PYTHON_VERSION]
      ALPINE_VARIANTS;
  cuda_base_images ←
    generate_base_images flwr_version SUPPORTED_PYTHON_VERSIONS
      CUDA_VARIANTS;
  inr (ubuntu_base_images ++ alpine_base_images ++ cuda_base_images).

(** The ["supernode"] summand of [binary_images]. *)
Definition supernode_images (base_images : list BaseImage)
    : list BinaryImage :=
  generate_binary_images "supernode" base_images
    (Some tag_latest_alpine_with_flwr_version) (Some supernode_filter).

(** [binary_images] of the main block. *)
Definition binary_images (base_images : list BaseImage) : list BinaryImage :=
  generate_binary_images "superlink" base_images
    (Some tag_latest_alpine_with_flwr_version) (Some superlink_filter)
  ++ supernode_images base_images
  ++ generate_binary_images "serverapp" base_images
       (Some tag_latest_ubuntu_with_flwr_version) (Some ubuntu_filter)
  ++ generate_binary_images "superexec" base_images
       (Some tag_latest_ubuntu_with_flwr_version) (Some ubuntu_cpu_filter)
  ++ generate_binary_images "clientapp" base_images
       (Some tag_latest_ubuntu_with_flwr_version) (Some ubuntu_filter).
(** The repositories of the main block with their tag functions and
    filters, in source order. *)
Definition repositories
    : list (string * (BaseImage → list string) * (BaseImage → PyVal)) :=
  [ ("superlink", tag_latest_alpine_with_flwr_version, superlink_filter);
    ("supernode", tag_latest_alpine_with_flwr_version, supernode_filter);
    ("serverapp", tag_latest_ubuntu_with_flwr_version, ubuntu_filter);
    ("superexec", tag_latest_ubuntu_with_flwr_version, ubuntu_cpu_filter);
    ("clientapp", tag_latest_ubuntu_with_flwr_version, ubuntu_filter) ].

(** The base images a filter keeps. *)
Definition kept (filter : BaseImage → PyVal) (images : list BaseImage)
    : list BaseImage :=
  List.filter (λ image, truthy (filter image)) images.

(** The part of a base tag after the Flower version, for the base images
    of the main block. *)
Definition tag_suffixes : list string :=
  [ "-py3.9-ubuntu24.04"; "-py3.10-ubuntu24.04"; "-py3.11-ubuntu24.04";
    "-py3.11-alpine3.19";
    "-py3.9-cu11.2-ubuntu24.04"; "-py3.10-cu11.2-ubuntu24.04";
    "-py3.11-cu11.2-ubuntu24.04";
    "-py3.9-cu11.8-ubuntu24.04"; "-py3.10-cu11.8-ubuntu24.04";
    "-py3.11-cu11.8-ubuntu24.04";
    "-py3.9-cu12.1-ubuntu24.04"; "-py3.10-cu12.1-ubuntu24.04";
    "-py3.11-cu12.1-ubuntu24.04";
    "-py3.9-cu12.3-ubuntu24.04"; "-py3.10-cu12.3-ubuntu24.04";
    "-py3.11-cu12.3-ubuntu24.04";
    "-py3.9-cu12.4-ubuntu24.04"; "-py3.10-cu12.4-ubuntu24.04";
    "-py3.11-cu12.4-ubuntu24.04" ].

(** The distro, the extra and the Python version of a base image. *)
Definition flavour (image : BaseImage) : DistroName * option Extra * string :=
  (name (distro (variant image)), extra (variant image),
   python_version image).
End DockerMatrix.

(** ** The task store and the coordinator rendezvous

    [Driver.send_and_receive] is called by [main] but defined outside the
    source files; this module follows sections 3, 4.2 and 4.3 of the
    specification.  Time is counted in polling ticks. *)
Module TaskStore.

Inductive Kind := Train | Evaluate | Query.

Definition Payload := string.

(** Modelled from the spec: the status of a task in the store behind
    the absent [Driver.send_and_receive],
    [Pending → InFlight → {Replied | Errored | TimedOut}]; the reply is
    part of the task record once the task is terminal. *)
Inductive Status :=
| Pending
| InFlight
| Replied (result : Payload)
| Errored (cause : string)
| TimedOut.

Definition terminal (s : Status) : bool :=
  match s with
  | Pending | InFlight => false
  | Replied _ | Errored _ | TimedOut => true
  end.

(** Modelled from the spec: the task record of the absent store. *)
Record Task := {
  task_id : nat;
  run_id : Z;
  group_id : string;
  dst : Z;
  kind : Kind;
  payload : Payload;
  created_at : nat;
  ttl : nat;
  status : Status
}.

Definition with_status (s : Status) (t : Task) : Task :=
  {| task_id := task_id t; run_id := run_id t; group_id := group_id t;
     dst := dst t; kind := kind t; payload := payload t;
     created_at := created_at t; ttl := ttl t; status := s |}.

(** The store owns the task records; a task id is the position of its
    record. *)
Abbreviation Store := (list Task).

(** Modelled from the spec: [create_task(run_id, group_id, dst, kind,
    payload, ttl) -> task_id] always succeeds with a fresh id; the initial
    status is [Pending]. *)
Definition create_task (now : nat) (run_id : Z) (group_id : string) (dst : Z)
    (kind : Kind) (payload : Payload) (ttl : nat) (st : Store)
    : nat * Store :=
  let id := length st in
  (id, st ++ [ {| task_id := id; run_id := run_id; group_id := group_id;
                  dst := dst; kind := kind; payload := payload;
                  created_at := now; ttl := ttl; status := Pending |} ]).

Definition pending_for (node_id : Z) (t : Task) : bool :=
  match status t with
  | Pending => bool_decide (dst t = node_id)
  | _ => false
  end.

(** Modelled from the spec: [pull_pending(node_id)] returns all [Pending]
    tasks addressed to [node_id] and moves each of them to [InFlight]. *)
Definition pull_pending (node_id : Z) (st : Store) : list Task * Store :=
  (filter (λ t, pending_for node_id t = true) st,
   (λ t, if pending_for node_id t then with_status InFlight t else t) <$> st).

(** What a participant submits: a result or an error with its cause. *)
Inductive Reply :=
| Result (result : Payload)
| Error (cause : string).

Definition reply_status (r : Reply) : Status :=
  match r with
  | Result p => Replied p
  | Error c => Errored c
  end.

(** Modelled from the spec: [submit_reply(task_id, result_or_error)] moves
    an [InFlight] task to [Replied] or [Errored]; it is rejected when the
    task is unknown or not [InFlight]. *)
Definition submit_reply (id : nat) (r : Reply) (st : Store) : bool * Store :=
  match st !! id with
  | Some t =>
      match status t with
      | InFlight => (true, <[id := with_status (reply_status r) t]> st)
      | _ => (false, st)
      end
  | None => (false, st)
  end.

Definition expired (now : nat) (t : Task) : bool :=
  negb (terminal (status t)) && bool_decide (created_at t + ttl t < now)%nat.

(** Modelled from the spec: [reap_expired(now)] moves the [Pending] and
    [InFlight] tasks past [created_at + ttl] to [TimedOut] and counts
    them. *)
Definition reap_expired (now : nat) (st : Store) : nat * Store :=
  (length (filter (λ t, expired now t = true) st),
   (λ t, if expired now t then with_status TimedOut t else t) <$> st).

(** Modelled from the spec: what the participants, absent from the source
    files, do to the store during one tick. *)
Inductive Action :=
| Pull (node_id : Z)
| Submit (id : nat) (r : Reply).

Definition act (a : Action) (st : Store) : Store :=
  match a with
  | Pull node_id => (pull_pending node_id st).2
  | Submit id r => (submit_reply id r st).2
  end.

Definition act_all (actions : list Action) (st : Store) : Store :=
  foldl (λ st a, act a st) st actions.

(** Modelled from the spec: a task-creation request, the argument of the
    absent [send_and_receive]. *)
Record Request := {
  req_run_id : Z;
  req_group_id : string;
  req_dst : Z;
  req_kind : Kind;
  req_payload : Payload
}.

(** Modelled from the spec: step 1 of the absent rendezvous.  The tasks
    of the group are created one after the other; [create_task] cannot
    fail, so nothing is rolled back. *)
Fixpoint create_all (now ttl : nat) (reqs : list Request) (st : Store)
    : list nat * Store :=
  match reqs with
  | [] => ([], st)
  | req :: reqs' =>
      let '(id, st1) :=
        create_task now (req_run_id req) (req_group_id req) (req_dst req)
          (req_kind req) (req_payload req) ttl st in
      let '(ids, st2) := create_all now ttl reqs' st1 in
      (id :: ids, st2)
  end.

Definition terminal_at (st : Store) (id : nat) : bool :=
  match st !! id with
  | Some t => terminal (status t)
  | None => false
  end.

Definition all_terminal (ids : list nat) (st : Store) : bool :=
  forallb (terminal_at st) ids.

(** Modelled from the spec: step 2 of the absent rendezvous.  Poll until
    every task of the group is terminal or the timeout has elapsed;
    [world t] is what the participants do during tick [t], and expired
    tasks are reaped at every poll. *)
Fixpoint poll (ticks : nat) (t : nat) (world : nat → list Action)
    (ids : list nat) (st : Store) : Store :=
  match ticks with
  | O => st
  | S ticks' =>
      if all_terminal ids st then st
      else poll ticks' (S t) world ids
             (reap_expired (S t) (act_all (world t) st)).2
  end.

(** Modelled from the spec: step 3 of the absent rendezvous.  A task of
    the group that is still [Pending] or [InFlight] is forced to
    [TimedOut]. *)
Definition force_timed_out (t : Task) : Task :=
  if terminal (status t) then t else with_status TimedOut t.

Definition force_timeout (ids : list nat) (st : Store) : Store :=
  foldl (λ st id, alter force_timed_out id st) st ids.

(** The entry reported for a task: its reply, or nothing. *)
Definition reply_of (t : Task) : option Reply :=
  match status t with
  | Replied p => Some (Result p)
  | Errored c => Some (Error c)
  | _ => None
  end.

Definition entry (st : Store) (id : nat) : option Reply :=
  st !! id ≫= reply_of.

(** Modelled from the spec: steps 1 and 2 of the absent rendezvous, the
    store when the wait ends, with the ids of the group. *)
Definition rendezvous_wait (reqs : list Request) (timeout now : nat)
    (world : nat → list Action) (st : Store) : list nat * Store :=
  let '(ids, st1) := create_all now timeout reqs st in
  (ids, poll timeout now world ids st1).

(** Modelled from the spec: [send_and_receive(tasks, timeout)] creates
    the tasks, waits, forces what is unresolved to [TimedOut] and returns
    one reply-or-absence per request, in the order of the requests. *)
Definition send_and_receive (reqs : list Request) (timeout now : nat)
    (world : nat → list Action) (st : Store)
    : list (option Reply) * Store :=
  let '(ids, st2) := rendezvous_wait reqs timeout now world st in
  let st3 := force_timeout ids st2 in
  (entry st3 <$> ids, st3).

(** The number of replies, successes or errors, in a result. *)
Definition count_replies (results : list (option Reply)) : nat :=
  length (filter is_Some results).

Definition count_absent (results : list (option Reply)) : nat :=
  length (filter (λ r, r = None) results).

(** The tasks among [ids] to which a reply was accepted in [st]. *)
Definition replied_in (st : Store) (ids : list nat) : nat :=
  length (filter (λ id, is_Some (entry st id)) ids).

(** *** What the participants did, read off their actions alone *)

(** Everything the participants do during the [timeout] ticks that start
    at [now], in order. *)
Definition actions_within (world : nat → list Action) (now timeout : nat)
    : list Action :=
  concat (world <$> seq now timeout).

(** The first reply submitted for the task [id]. *)
Fixpoint first_submit (id : nat) (actions : list Action) : option Reply :=
  match actions with
  | [] => None
  | Submit i r :: actions' =>
      if decide (i = id) then Some r else first_submit id actions'
  | Pull _ :: actions' => first_submit id actions'
  end.

(** The reply of the participant [node_id] to the task [id]: the first
    reply submitted for the task after the participant has pulled its
    pending tasks; nothing when it did not pull or nothing was submitted
    after it pulled. *)
Fixpoint answer (id : nat) (node_id : Z) (actions : list Action)
    : option Reply :=
  match actions with
  | [] => None
  | Pull n :: actions' =>
      if decide (n = node_id) then first_submit id actions'
      else answer id node_id actions'
  | Submit _ _ :: actions' => answer id node_id actions'
  end.

(** The replies the participants gave, within the timeout, to the tasks
    created for [reqs] at the positions from [base] on. *)
Definition replies_within (world : nat → list Action) (now timeout : nat)
    (base : nat) (reqs : list Request) : list (option Reply) :=
  imap (λ i req, answer (base + i) (req_dst req)
                   (actions_within world now timeout)) reqs.

(** The status a task must end in, given the reply to it. *)
Definition final_status (o : option Reply) : Status :=
  match o with
  | Some r => reply_status r
  | None => TimedOut
  end.

(** The status of the task [id], addressed to [node_id], after one more
    action of the participants. *)
Definition step_status (id : nat) (node_id : Z) (s : Status) (a : Action)
    : Status :=
  match a, s with
  | Pull n, Pending => if decide (n = node_id) then InFlight else Pending
  | Submit i r, InFlight => if decide (i = id) then reply_status r else InFlight
  | _, _ => s
  end.

(** [st'] is a later state of [st]: no record is dropped, the fields
    fixed at creation are unchanged, and a terminal status stays. *)
Definition evolves (st st' : Store) : Prop :=
  (length st ≤ length st')%nat ∧
  ∀ i t, st !! i = Some t →
    ∃ t', st' !! i = Some t' ∧
          with_status Pending t' = with_status Pending t ∧
          (terminal (status t) = true → status t' = status t).
End TaskStore.

(** ** [json.loads]

    A recogniser for JSON documents as Python's [json.loads] reads them,
    used to run [start_vce] on concrete configuration strings.  Strings
    and numbers are kept as they are written. *)
Module Json.

#[local] Set Warnings "-register-all".
(** A JSON document. *)
Inductive JSON :=
| JNull
| JBool (b : bool)
| JNumber (literal : string)
| JString (raw : string)
| JArray (items : list JSON)
| JObject (members : list (string * JSON)).
#[local] Set Warnings "register-all".

Definition is_ws (c : ascii) : bool :=
  bool_decide (c = " "%char) || bool_decide (c = "009"%char)
  || bool_decide (c = "010"%char) || bool_decide (c = "013"%char).

Fixpoint skip_ws (s : string) : string :=
  match s with
  | String c s' => if is_ws c then skip_ws s' else s
  | EmptyString => s
  end.

Definition is_digit (c : ascii) : bool :=
  (48 <=? nat_of_ascii c)%nat && (nat_of_ascii c <=? 57)%nat.

Definition is_hex (c : ascii) : bool :=
  is_digit c
  || (65 <=? nat_of_ascii c)%nat && (nat_of_ascii c <=? 70)%nat
  || (97 <=? nat_of_ascii c)%nat && (nat_of_ascii c <=? 102)%nat.

Definition is_simple_escape (c : ascii) : bool :=
  bool_decide (c ∈ ["034"%char; "\"%char; "/"%char; "b"%char; "f"%char;
                    "n"%char; "r"%char; "t"%char]).

(** [strip prefix s]: the rest of [s] after [prefix], if [s] starts
    with it. *)
Fixpoint strip (prefix s : string) : option string :=
  match prefix, s with
  | EmptyString, _ => Some s
  | String p prefix', String c s' =>
      if bool_decide (p = c) then strip prefix' s' else None
  | String _ _, EmptyString => None
  end.

(** The characters of a string literal after its opening quote, up to the
    closing quote; the second component is what follows the literal. *)
Fixpoint string_body (s : string) : option (string * string) :=
  match s with
  | EmptyString => None
  | String c s' =>
      if bool_decide (c = "034"%char) then Some (EmptyString, s')
      else if bool_decide (c = "\"%char) then
        match s' with
        | String e s'' =>
            if is_simple_escape e then
              '(body, rest) ← string_body s'';
              Some (String c (String e body), rest)
            else if bool_decide (e = "u"%char) then
              match s'' with
              | String h1 (String h2 (String h3 (String h4 s5))) =>
                  if is_hex h1 && is_hex h2 && is_hex h3 && is_hex h4 then
                    '(body, rest) ← string_body s5;
                    Some (String c (String e (String h1 (String h2
                            (String h3 (String h4 body))))), rest)
                  else None
              | _ => None
              end
            else None
        | EmptyString => None
        end
      else if (nat_of_ascii c <? 32)%nat then None
      else
        '(body, rest) ← string_body s';
        Some (String c body, rest)
  end.

(** The longest prefix of digits. *)
Fixpoint digits (s : string) : string * string :=
  match s with
  | String c s' =>
      if is_digit c then let '(ds, rest) := digits s' in (String c ds, rest)
      else (EmptyString, s)
  | EmptyString => (EmptyString, s)
  end.

(** One or more digits. *)
Definition digits1 (s : string) : option (string * string) :=
  match digits s with
  | (EmptyString, _) => None
  | (ds, rest) => Some (ds, rest)
  end.

(** A number: an optional minus sign, an integer part without leading
    zeros, an optional fraction and an optional exponent. *)
Definition number (s : string) : option (string * string) :=
  let '(sign, s) :=
    match s with
    | String "-"%char s' => ("-", s')
    | _ => ("", s)
    end in
  '(int, s) ←
    match s with
    | String "0"%char s' => Some ("0", s')
    | _ => digits1 s
    end;
  '(frac, s) ←
    match s with
    | String "."%char s' => '(ds, rest) ← digits1 s'; Some ("." +:+ ds, rest)
    | _ => Some ("", s)
    end;
  '(exp, s) ←
    match s with
    | String e s' =>
        if bool_decide (e = "e"%char) || bool_decide (e = "E"%char) then
          let '(esign, s') :=
            match s' with
            | String "+"%char s'' => ("+", s'')
            | String "-"%char s'' => ("-", s'')
            | _ => ("", s')
            end in
          '(ds, rest) ← digits1 s';
          Some (String e (esign +:+ ds), rest)
        else Some ("", s)
    | EmptyString => Some ("", s)
    end;
  Some (sign +:+ int +:+ frac +:+ exp, s).

(** The words that stand for a value. *)
Definition literal (s : string) : option (JSON * string) :=
  match strip "null" s, strip "true" s, strip "false" s with
  | Some rest, _, _ => Some (JNull, rest)
  | _, Some rest, _ => Some (JBool true, rest)
  | _, _, Some rest => Some (JBool false, rest)
  | _, _, _ =>
      match strip "NaN" s, strip "Infinity" s, strip "-Infinity" s with
      | Some rest, _, _ => Some (JNumber "NaN", rest)
      | _, Some rest, _ => Some (JNumber "Infinity", rest)
      | _, _, Some rest => Some (JNumber "-Infinity", rest)
      | _, _, _ => None
      end
  end.

(** The elements of an array after the first, up to the closing bracket:
    a comma and a value, repeatedly. *)
Fixpoint elements (value : string → option (JSON * string)) (fuel : nat)
    (s : string) (acc : list JSON) : option (list JSON * string) :=
  match fuel with
  | O => None
  | S fuel' =>
      match skip_ws s with
      | String "]"%char rest => Some (acc, rest)
      | String ","%char s' =>
          '(v, s'') ← value s';
          elements value fuel' s'' (acc ++ [v])
      | _ => None
      end
  end.

(** One member of an object: [string : value]. *)
Definition member (value : string → option (JSON * string)) (s : string)
    : option (string * JSON * string) :=
  match skip_ws s with
  | String "034"%char s' =>
      '(key, s'') ← string_body s';
      match skip_ws s'' with
      | String ":"%char s3 => '(v, rest) ← value s3; Some (key, v, rest)
      | _ => None
      end
  | _ => None
  end.

(** The members of an object after the first, up to the closing brace. *)
Fixpoint members (value : string → option (JSON * string)) (fuel : nat)
    (s : string) (acc : list (string * JSON))
    : option (list (string * JSON) * string) :=
  match fuel with
  | O => None
  | S fuel' =>
      match skip_ws s with
      | String "}"%char rest => Some (acc, rest)
      | String ","%char s' =>
          '(key, v, s'') ← member value s';
          members value fuel' s'' (acc ++ [(key, v)])
      | _ => None
      end
  end.

(** A value, with the white space before it. *)
Fixpoint value (fuel : nat) (s : string) : option (JSON * string) :=
  match fuel with
  | O => None
  | S fuel' =>
      match skip_ws s with
      | String "["%char s' =>
          match skip_ws s' with
          | String "]"%char rest => Some (JArray [], rest)
          | _ =>
              '(v, s'') ← value fuel' s';
              '(items, rest) ← elements (value fuel') (String.length s) s'' [v];
              Some (JArray items, rest)
          end
      | String "{"%char s' =>
          match skip_ws s' with
          | String "}"%char rest => Some (JObject [], rest)
          | _ =>
              '(key, v, s'') ← member (value fuel') s';
              '(ms, rest) ←
                members (value fuel') (String.length s) s'' [(key, v)];
              Some (JObject ms, rest)
          end
      | String "034"%char s' =>
          '(body, rest) ← string_body s'; Some (JString body, rest)
      | s0 =>
          match literal s0 with
          | Some r => Some r
          | None => '(n, rest) ← number s0; Some (JNumber n, rest)
          end
      end
  end.

(** [json.loads(s)]: one value, white space around it, nothing else. *)
Definition loads (s : string) : option JSON :=
  '(v, rest) ← value (S (String.length s)) s;
  match skip_ws rest with
  | EmptyString => Some v
  | _ => None
  end.
End Json.

(* ################################################################# *)
(** * Properties *)

(** Membership in a list that is written out. *)
Ltac in_list :=
  repeat first [apply list_elem_of_here | apply list_elem_of_further].


Module PyDictFacts.
Import PyDict.
Section dict_facts.
Context {K V : Type} `{EqDecision K}.
Implicit Types (k : K) (v : V) (d : dict K V).

Lemma get_None k d : get k d = None ↔ k ∉ keys d.
Proof.
  unfold keys. induction d as [|[k' v] d IH]; simpl.
  - split; [intros _; apply not_elem_of_nil | done].
  - rewrite not_elem_of_cons. destruct (decide (k = k')) as [->|Hne].
    + split; [done | intros [? _]; done].
    + rewrite IH. split; [by split | by intros [_ ?]].
Qed.

Lemma get_Some_keys k v d : get k d = Some v → k ∈ keys d.
Proof.
  intros H0. destruct (decide (k ∈ keys d)) as [|Hn]; [done|].
  apply get_None in Hn. congruence.
Qed.

Lemma get_Some_elem_of k v d : get k d = Some v → (k, v) ∈ d.
Proof.
  induction d as [|[k' v'] d IH]; simpl; [done|].
  destruct (decide (k = k')) as [->|Hne].
  - intros [= ->]. apply elem_of_cons; by left.
  - intros Hg. apply elem_of_cons; right; by apply IH.
Qed.

Lemma get_set_eq k v d : get k (set k v d) = Some v.
Proof.
  induction d as [|[k' v'] d IH]; simpl.
  - by rewrite decide_True.
  - destruct (decide (k = k')) as [->|Hne]; simpl.
    + by rewrite decide_True.
    + by rewrite decide_False.
Qed.

Lemma get_set_ne k k' v d : k ≠ k' → get k' (set k v d) = get k' d.
Proof.
  intros Hne. induction d as [|[k0 v0] d IH]; simpl.
  - rewrite decide_False; [done | congruence].
  - destruct (decide (k = k0)) as [->|Hne0]; simpl.
    + rewrite !decide_False; [done | congruence | congruence].
    + destruct (decide (k' = k0)); [done | apply IH].
Qed.

Lemma set_fresh k v d : k ∉ keys d → set k v d = d ++ [(k, v)].
Proof.
  unfold keys. induction d as [|[k' v'] d IH]; simpl; [done|].
  rewrite not_elem_of_cons. intros [Hne Hnin].
  rewrite decide_False by done. by rewrite IH.
Qed.

Lemma keys_set_present k v d : k ∈ keys d → keys (set k v d) = keys d.
Proof.
  unfold keys. induction d as [|[k' v'] d IH]; simpl.
  - intros H0. by apply elem_of_nil in H0.
  - intros H0. destruct (decide (k = k')) as [->|Hne]; simpl; [done|].
    f_equal. apply IH. apply elem_of_cons in H0 as [?|?]; [done | done].
Qed.

Lemma keys_set_NoDup k v d : NoDup (keys d) → NoDup (keys (set k v d)).
Proof.
  intros Hnd. destruct (decide (k ∈ keys d)) as [Hin|Hnin].
  - by rewrite keys_set_present.
  - rewrite set_fresh by done. unfold keys in *. rewrite fmap_app. simpl.
    apply NoDup_app. split_and!; [done | | apply NoDup_singleton].
    intros x Hx Hx'. apply list_elem_of_singleton in Hx'. by subst.
Qed.

Lemma get_app k d1 d2 :
  get k (d1 ++ d2) =
    match get k d1 with Some v => Some v | None => get k d2 end.
Proof.
  induction d1 as [|[k' v'] d1 IH]; simpl; [done|].
  by destruct (decide (k = k')).
Qed.

Lemma get_lookup k v d i :
  NoDup (keys d) → d !! i = Some (k, v) → get k d = Some v.
Proof.
  unfold keys. revert i. induction d as [|[k' v'] d IH]; intros i Hnd Hi;
    [done|].
  simpl in Hnd. apply NoDup_cons in Hnd as [Hnin Hnd].
  destruct i as [|i]; simpl in *.
  - injection Hi as -> ->. by rewrite decide_True.
  - rewrite decide_False; [by eapply IH|].
    intros ->. apply Hnin. apply list_elem_of_fmap.
    exists (k', v). split; [done | by eapply list_elem_of_lookup_2].
Qed.

Lemma get_take_None k v d i :
  NoDup (keys d) → d !! i = Some (k, v) → get k (take i d) = None.
Proof.
  intros Hnd Hi. apply get_None. intros Hin.
  apply list_elem_of_lookup_1 in Hin as [j Hj]. unfold keys in Hj.
  assert (j < i)%nat as Hlt.
  { apply lookup_lt_Some in Hj. rewrite length_fmap, length_take in Hj.
    lia. }
  rewrite list_lookup_fmap, lookup_take_lt in Hj by done.
  assert (keys d !! i = Some k) as Hki
    by (unfold keys; by rewrite list_lookup_fmap, Hi).
  assert (keys d !! j = Some k) as Hkj
    by (unfold keys; by rewrite list_lookup_fmap).
  pose proof (NoDup_lookup _ _ _ _ Hnd Hki Hkj). lia.
Qed.

Lemma keys_fmap_values (f : K → V → V) d :
  keys ((λ kv, (kv.1, f kv.1 kv.2)) <$> d) = keys d.
Proof.
  unfold keys. induction d as [|[k v] d IH]; [done|].
  rewrite !fmap_cons. simpl. by rewrite IH.
Qed.

Lemma get_fmap_values (f : K → V → V) k d :
  get k ((λ kv, (kv.1, f kv.1 kv.2)) <$> d) = f k <$> get k d.
Proof.
  induction d as [|[k' v'] d IH]; [done|].
  rewrite fmap_cons. simpl. by destruct (decide (k = k')) as [->|].
Qed.

Lemma set_middle k v v' d1 d2 :
  k ∉ keys d1 → set k v' (d1 ++ (k, v) :: d2) = d1 ++ (k, v') :: d2.
Proof.
  unfold keys. induction d1 as [|[k0 v0] d1 IH]; simpl.
  - intros _. by rewrite decide_True.
  - intros [Hne Hnin]%not_elem_of_cons.
    rewrite decide_False by done. by rewrite IH.
Qed.
End dict_facts.
End PyDictFacts.

(** ** [vce_api.py]: registration and per-node state *)
Module VceApiProofs.
Import PyDict PyDictFacts VceApi.

Lemma get_zip_lookup {V} (ks : list Z) (vs : list V) i k v :
  NoDup ks → ks !! i = Some k → vs !! i = Some v →
  get k (zip ks vs) = Some v.
Proof.
  revert vs i. induction ks as [|k0 ks IH]; intros vs i Hnd Hk Hv; [done|].
  destruct vs as [|v0 vs]; [done|].
  apply NoDup_cons in Hnd as [Hnin Hnd]. simpl.
  destruct i as [|i]; simpl in *.
  - injection Hk as ->. injection Hv as ->. by rewrite decide_True.
  - rewrite decide_False; [by eapply IH|].
    intros ->. apply Hnin. by eapply list_elem_of_lookup_2.
Qed.

Section vce_facts.
Variable State : Type.
Variable create_node : State → Z * State.
Variable NodeState : Type.
Variable NodeState_new : NodeState.

Lemma length_created_ids n state :
  length (created_ids State create_node n state) = n.
Proof.
  revert state. induction n as [|n IH]; intros state; simpl; [done|].
  destruct (create_node state) as [id state']. simpl. by rewrite IH.
Qed.

Lemma register_loop_keys_NoDup idxs state acc :
  NoDup (keys acc) →
  NoDup (keys (register_loop State create_node idxs state acc).1).
Proof.
  revert state acc. induction idxs as [|i idxs IH]; intros state acc Hnd; simpl.
  - done.
  - destruct (create_node state) as [id state']. apply IH.
    by apply keys_set_NoDup.
Qed.

Lemma register_loop_spec idxs state acc :
  NoDup (keys acc ++ created_ids State create_node (length idxs) state) →
  register_loop State create_node idxs state acc =
    (acc ++ zip (created_ids State create_node (length idxs) state) idxs,
     state_after State create_node (length idxs) state).
Proof.
  revert state acc. induction idxs as [|i idxs IH]; intros state acc; simpl.
  - intros _. by rewrite app_nil_r.
  - destruct (create_node state) as [id state'] eqn:Hc. simpl. intros Hnd.
    assert (id ∉ keys acc) as Hfresh.
    { apply NoDup_app in Hnd as (_ & Hdisj & _). intros Hin.
      apply (Hdisj _ Hin). apply elem_of_cons; by left. }
    rewrite set_fresh by done. rewrite IH.
    + by rewrite <- app_assoc.
    + unfold keys in *. rewrite fmap_app. simpl. by rewrite <- app_assoc.
Qed.

Lemma node_states_loop_spec ks acc (h : Heap.heap NodeState) :
  NoDup (keys acc ++ ks) →
  node_states_loop NodeState NodeState_new ks acc h =
    (acc ++ zip ks (seq (length h) (length ks)),
     h ++ replicate (length ks) NodeState_new).
Proof.
  revert acc h. induction ks as [|k ks IH]; intros acc h; simpl.
  - intros _. by rewrite !app_nil_r.
  - intros Hnd.
    assert (k ∉ keys acc) as Hfresh.
    { apply NoDup_app in Hnd as (_ & Hdisj & _). intros Hin.
      apply (Hdisj _ Hin). apply elem_of_cons; by left. }
    rewrite set_fresh by done. rewrite IH.
    + rewrite length_app. simpl. rewrite Nat.add_1_r.
      by rewrite <- !app_assoc.
    + unfold keys in *. rewrite fmap_app. simpl. by rewrite <- app_assoc.
Qed.

Lemma register_loop_state idxs state acc :
  (register_loop State create_node idxs state acc).2 =
    state_after State create_node (length idxs) state.
Proof.
  revert state acc. induction idxs as [|i idxs IH]; intros state acc; simpl.
  - done.
  - destruct (create_node state) as [id state']. simpl. apply IH.
Qed.

Lemma register_nodes_zip num_nodes state :
  NoDup (created_ids State create_node (Z.to_nat num_nodes) state) →
  (_register_nodes State create_node num_nodes state).1 =
    zip (created_ids State create_node (Z.to_nat num_nodes) state)
        (range num_nodes).
Proof.
  intros Hnd. unfold _register_nodes, range.
  rewrite register_loop_spec; rewrite length_seqZ; done.
Qed.

(** C2: when the identifiers handed out by [create_node] are pairwise
    distinct, [_register_nodes] returns a mapping with [num_nodes] entries
    that binds the identifier of the i-th call to partition index [i]; the
    indices are exactly [0 .. num_nodes-1] and each is hit once. *)
Theorem register_nodes_bijection (num_nodes : Z) (state : State) :
  0 ≤ num_nodes →
  NoDup (created_ids State create_node (Z.to_nat num_nodes) state) →
  let ids := created_ids State create_node (Z.to_nat num_nodes) state in
  let m := (_register_nodes State create_node num_nodes state).1 in
  Z.of_nat (len m) = num_nodes ∧
  keys m = ids ∧
  values m = range num_nodes ∧
  (∀ i node_id, ids !! i = Some node_id → get node_id m = Some (Z.of_nat i)) ∧
  (∀ node_id p, get node_id m = Some p →
     0 ≤ p < num_nodes ∧ ids !! Z.to_nat p = Some node_id).
Proof.
  intros Hn Hnd ids m.
  assert (m = zip ids (range num_nodes)) as Hm
    by (by apply register_nodes_zip).
  assert (length ids = Z.to_nat num_nodes) as Hlen_ids
    by apply length_created_ids.
  assert (length (range num_nodes) = Z.to_nat num_nodes) as Hlen_r
    by apply length_seqZ.
  rewrite Hm. split_and!.
  - unfold len. rewrite length_zip, Hlen_ids, Hlen_r. lia.
  - apply fst_zip. lia.
  - apply snd_zip. lia.
  - intros i node_id Hi. eapply get_zip_lookup; [done | done |].
    unfold range. rewrite lookup_seqZ_lt; [f_equal; lia|].
    apply lookup_lt_Some in Hi. lia.
  - intros node_id p Hg. apply get_Some_elem_of in Hg.
    apply list_elem_of_lookup_1 in Hg as [i Hi].
    apply lookup_zip_Some in Hi as [Hid Hp].
    unfold range in Hp. apply lookup_seqZ in Hp as [-> Hlt].
    split; [lia|]. by rewrite Z.add_0_l, Nat2Z.id.
Qed.


Section invalid_json.
Variable JSON : Type.
Variable json_loads : string → option JSON.
(** What it means for a node id to be registered in a state. *)
Variable registered : State → Z → Prop.
Hypothesis create_node_registers : ∀ s,
  registered (create_node s).2 (create_node s).1.
Hypothesis create_node_keeps : ∀ s id,
  registered s id → registered (create_node s).2 id.

Lemma created_ids_registered n state id :
  id ∈ created_ids State create_node n state →
  registered (state_after State create_node n state) id.
Proof.
  assert (∀ k s i, registered s i →
            registered (state_after State create_node k s) i) as Hkeep.
  { induction k as [|k IH]; intros s i Hr; simpl; [done|].
    apply IH. by apply create_node_keeps. }
  revert state. induction n as [|n IH]; intros state; simpl.
  - intros Hin. by apply elem_of_nil in Hin.
  - pose proof (create_node_registers state) as Hreg.
    destruct (create_node state) as [id0 state']. simpl in *.
    intros [->|Hin]%elem_of_cons.
    + by apply Hkeep.
    + by apply IH.
Qed.

(** C9: when the backend config is not valid JSON, [start_vce] raises the
    decoding error after the registration has taken place: the state it
    leaves behind is the one reached by [num_supernodes] calls of
    [create_node], and every node id registered by them is still
    registered in it. *)
Theorem start_vce_invalid_json_not_atomic
    (num_supernodes : Z) (client_app_str backend_str cfg working_dir : string)
    (state : State) (h : Heap.heap NodeState) :
  json_loads cfg = None →
  let n := Z.to_nat num_supernodes in
  let r := start_vce State create_node NodeState NodeState_new JSON json_loads
             num_supernodes client_app_str backend_str cfg state working_dir h in
  r.1.1 = inl JSONDecodeError ∧
  r.1.2 = (_register_nodes State create_node num_supernodes state).2 ∧
  r.1.2 = state_after State create_node n state ∧
  length (created_ids State create_node n state) = n ∧
  (∀ node_id, node_id ∈ created_ids State create_node n state →
     registered r.1.2 node_id).
Proof.
  intros Hbad n r. subst r. unfold start_vce, start_vce_setup.
  destruct (_register_nodes State create_node num_supernodes state)
    as [nm state'] eqn:Hreg.
  destruct (node_states_loop _ _ _ _ _) as [ns h'].
  rewrite Hbad. simpl.
  assert (state' = state_after State create_node n state) as ->.
  { replace state' with
      (_register_nodes State create_node num_supernodes state).2
      by (by rewrite Hreg).
    unfold _register_nodes, range. rewrite register_loop_state.
    by rewrite length_seqZ. }
  split_and!; [done | done | done | apply length_created_ids |].
  intros node_id Hin. by apply created_ids_registered.
Qed.
End invalid_json.
End vce_facts.
End VceApiProofs.

(** ** [server_app.py]: aggregation, message construction, round loop *)
Module ServerAppProofs.
Import PyDict PyDictFacts ServerApp.

Section app_facts.
Context {T ParametersRecord : Type} `{TensorOps T}.
Variable parameters_record_to_state_dict : ParametersRecord → StateDict T.
Variable state_dict_to_parameters_record : StateDict T → ParametersRecord.
Abbreviation Msg := (Message ParametersRecord).

Lemma collect_state_dicts_error_free messages acc h :
  collect_state_dicts parameters_record_to_state_dict messages acc h =
  collect_state_dicts parameters_record_to_state_dict (error_free messages)
    acc h.
Proof.
  revert acc h. unfold error_free.
  induction messages as [|msg messages IH]; intros acc h; [done|].
  destruct (has_error msg) eqn:Herr.
  - rewrite filter_cons_False by congruence. simpl. rewrite Herr. apply IH.
  - rewrite filter_cons_True by done. simpl. rewrite Herr.
    destruct (get_content msg) as [e|c]; [done|]. simpl.
    destruct (or_raise KeyError _) as [e|rec]; [done|]. simpl. apply IH.
Qed.

Lemma aggregate_error_free messages :
  aggregate_parameters_from_messages parameters_record_to_state_dict messages =
  aggregate_parameters_from_messages parameters_record_to_state_dict
    (error_free messages).
Proof.
  unfold aggregate_parameters_from_messages.
  by rewrite collect_state_dicts_error_free.
Qed.

(** C7: a message with an error has no influence on the aggregate:
    inserting it anywhere in the input, or removing it, leaves the result
    of [aggregate_parameters_from_messages] as it was. *)
Theorem aggregate_ignores_error_messages (pre post : list Msg) (msg : Msg) :
  has_error msg = true →
  aggregate_parameters_from_messages parameters_record_to_state_dict
    (pre ++ msg :: post) =
  aggregate_parameters_from_messages parameters_record_to_state_dict
    (pre ++ post).
Proof.
  intros Herr.
  rewrite (aggregate_error_free (pre ++ msg :: post)).
  rewrite (aggregate_error_free (pre ++ post)).
  unfold error_free. rewrite !filter_app.
  rewrite filter_cons_False by congruence. done.
Qed.

(** C8: when the input is empty or every message has an error,
    [state_dict_list] stays empty and [state_dict_list[0]] raises: no
    aggregate is returned. *)
Theorem aggregate_all_failed_raises (messages : list Msg) :
  Forall (λ msg, has_error msg = true) messages →
  aggregate_parameters_from_messages parameters_record_to_state_dict messages
    = inl IndexError.
Proof.
  intros Hall. rewrite aggregate_error_free.
  assert (error_free messages = []) as ->.
  { unfold error_free. induction Hall as [|msg messages Herr _ IH]; [done|].
    rewrite filter_cons_False by congruence. done. }
  reflexivity.
Qed.

(** *** What the aggregation computes *)

Lemma keys_add_dict (d new_global_dict : StateDict T) :
  keys (add_dict d new_global_dict) = keys new_global_dict.
Proof.
  apply (keys_fmap_values
           (λ key cur, match get key d with
                       | Some value => np_add cur value
                       | None => cur
                       end)).
Qed.

Lemma get_add_dict key (d new_global_dict : StateDict T) :
  get key (add_dict d new_global_dict) =
    (λ cur, match get key d with
            | Some value => np_add cur value
            | None => cur
            end) <$> get key new_global_dict.
Proof.
  apply (get_fmap_values
           (λ key cur, match get key d with
                       | Some value => np_add cur value
                       | None => cur
                       end)).
Qed.

Lemma add_dict_snoc_fresh key value (seen new_global_dict : StateDict T) :
  key ∉ keys new_global_dict →
  add_dict (seen ++ [(key, value)]) new_global_dict =
    add_dict seen new_global_dict.
Proof.
  unfold add_dict, keys.
  induction new_global_dict as [|[k v] ngd IH]; [done|].
  rewrite !fmap_cons. simpl. intros [Hne Hnin]%not_elem_of_cons.
  rewrite IH by done. f_equal. f_equal. rewrite get_app. simpl.
  rewrite decide_False by congruence. by destruct (get k seen).
Qed.

(** Adding the entry [(key, value)] of [d] to a dict that already has the
    entries of [d] before it added. *)
Lemma add_dict_snoc key value cur (seen new_global_dict : StateDict T) :
  NoDup (keys new_global_dict) →
  get key seen = None →
  get key new_global_dict = Some cur →
  set key (np_add cur value) (add_dict seen new_global_dict) =
    add_dict (seen ++ [(key, value)]) new_global_dict.
Proof.
  intros Hnd Hseen.
  induction new_global_dict as [|[k v] ngd IH]; [done|].
  unfold keys in Hnd. simpl in Hnd. apply NoDup_cons in Hnd as [Hnin Hnd].
  unfold add_dict. rewrite !fmap_cons. simpl.
  destruct (decide (key = k)) as [->|Hne].
  - intros [= ->]. rewrite get_app, Hseen. simpl.
    rewrite decide_True by done. f_equal.
    symmetry. by apply add_dict_snoc_fresh.
  - intros Hget. f_equal.
    + f_equal. rewrite get_app. simpl. rewrite decide_False by congruence.
      by destruct (get k seen).
    + by apply IH.
Qed.

(** The inner loop over the items of the object [d], whose value was [E]
    when the loop started: [d] is another object than [new_global_dict],
    or the same one.  [i] items have been visited. *)
Lemma add_items_spec n : ∀ i (h : Heap.heap (StateDict T)) d new_global_dict
    (E D : StateDict T),
  (d ≠ new_global_dict ∧ h !! d = Some E) ∨ (d = new_global_dict ∧ E = D) →
  h !! new_global_dict = Some (add_dict (take i E) D) →
  NoDup (keys D) → NoDup (keys E) → keys E ⊆ keys D →
  (i + n)%nat = length E →
  add_items (seq i n) d new_global_dict h =
    inr (<[new_global_dict := add_dict E D]> h).
Proof.
  induction n as [|n IH]; intros i h d new E D Hsrc Hnew HndD HndE Hsub Hlen.
  { simpl. rewrite take_ge in Hnew by lia.
    by rewrite list_insert_id. }
  assert (is_Some (E !! i)) as [[key value] Hi]
    by (apply lookup_lt_is_Some; lia).
  assert (get key (take i E) = None) as Hseen by (by eapply get_take_None).
  assert (deref h d !! i = Some (key, value)) as Hread.
  { unfold deref, Heap.read.
    destruct Hsrc as [[_ Hd]|[-> ->]]; [by rewrite Hd|].
    rewrite Hnew. simpl. unfold add_dict.
    rewrite list_lookup_fmap, Hi. simpl. by rewrite Hseen. }
  assert (∃ cur, get key D = Some cur) as [cur Hcur].
  { destruct (get key D) as [cur|] eqn:Hget; [by exists cur|].
    apply get_None in Hget. exfalso. apply Hget, Hsub.
    unfold keys. apply list_elem_of_fmap. exists (key, value).
    split; [done | by eapply list_elem_of_lookup_2]. }
  cbn [seq add_items]. rewrite Hread.
  unfold deref at 1 2, Heap.read, Heap.write. rewrite Hnew. simpl.
  rewrite get_add_dict, Hcur, Hseen. simpl.
  rewrite add_dict_snoc by done.
  rewrite <- (take_S_r E i (key, value)) by done.
  rewrite (IH (S i) _ d new E D); try done.
  - by rewrite list_insert_insert_eq.
  - destruct Hsrc as [[Hne Hd]|[-> ->]]; [left | by right].
    split; [done|]. by rewrite list_lookup_insert_ne.
  - apply list_lookup_insert_eq. by eapply lookup_lt_Some.
  - lia.
Qed.

Lemma add_dict_nil (new_global_dict : StateDict T) :
  add_dict [] new_global_dict = new_global_dict.
Proof.
  unfold add_dict. induction new_global_dict as [|[k v] ngd IH]; [done|].
  rewrite fmap_cons. simpl. f_equal. exact IH.
Qed.

(** The outer loop over objects other than [new_global_dict]. *)
Lemma add_state_dicts_others ds : ∀ (Es : list (StateDict T))
    (h : Heap.heap (StateDict T)) new_global_dict (D : StateDict T),
  Forall2 (λ d E, d ≠ new_global_dict ∧ h !! d = Some E) ds Es →
  Forall (λ E, NoDup (keys E) ∧ keys E ⊆ keys D) Es →
  h !! new_global_dict = Some D →
  NoDup (keys D) →
  add_state_dicts ds new_global_dict h =
    inr (<[new_global_dict := foldl (λ D E, add_dict E D) D Es]> h).
Proof.
  induction ds as [|d ds IH]; intros Es h new D Hds HEs Hnew HndD.
  { apply Forall2_nil_inv_l in Hds as ->. simpl.
    by rewrite list_insert_id. }
  apply Forall2_cons_inv_l in Hds as (E & Es' & [Hne Hd] & Hds & ->).
  apply Forall_cons in HEs as [[HndE Hsub] HEs].
  simpl. unfold deref at 1, Heap.read. rewrite Hd. simpl. unfold len.
  rewrite (add_items_spec (length E) 0 h d new E D); try done.
  - simpl.
    rewrite (IH Es' _ new (add_dict E D)).
    + by rewrite list_insert_insert_eq.
    + eapply Forall2_impl; [exact Hds|]. intros d' E' [Hne' Hd'].
      split; [done|]. by rewrite list_lookup_insert_ne.
    + eapply Forall_impl; [exact HEs|]. intros E' [? ?].
      by rewrite keys_add_dict.
    + apply list_lookup_insert_eq. by eapply lookup_lt_Some.
    + by rewrite keys_add_dict.
  - by left.
  - by rewrite add_dict_nil.
Qed.

Lemma scale_dict_app n (d1 d2 : StateDict T) :
  scale_dict n (d1 ++ d2) = scale_dict n d1 ++ scale_dict n d2.
Proof. apply fmap_app. Qed.

Lemma keys_scale_dict n (d : StateDict T) : keys (scale_dict n d) = keys d.
Proof. apply (keys_fmap_values (λ _ cur, true_div cur n)). Qed.

Lemma get_scale_dict key n (d : StateDict T) :
  get key (scale_dict n d) = (λ cur, true_div cur n) <$> get key d.
Proof. apply (get_fmap_values (λ _ cur, true_div cur n)). Qed.

(** The averaging loop, with the items of [pre] visited. *)
Lemma average_items_spec (suf : StateDict T) : ∀ (pre : StateDict T)
    (h : Heap.heap (StateDict T)) new_global_dict n,
  h !! new_global_dict = Some (scale_dict n pre ++ suf) →
  NoDup (keys (pre ++ suf)) →
  average_items (seq (length pre) (length suf)) new_global_dict n h =
    inr (<[new_global_dict := scale_dict n (pre ++ suf)]> h).
Proof.
  induction suf as [|[key cur] suf IH]; intros pre h new n Hnew Hnd.
  { simpl. rewrite app_nil_r in *. by rewrite list_insert_id. }
  assert (key ∉ keys pre) as Hfresh.
  { unfold keys in *. rewrite fmap_app in Hnd.
    apply NoDup_app in Hnd as (_ & Hdisj & _). intros Hin.
    apply (Hdisj _ Hin). simpl. apply list_elem_of_here. }
  cbn [length seq average_items].
  unfold deref at 1 2 3, Heap.read, Heap.write. rewrite Hnew. simpl.
  assert (length pre = length (scale_dict n pre)) as Hlen
    by (unfold scale_dict; by rewrite length_fmap).
  rewrite Hlen at 1. rewrite list_lookup_middle by done.
  rewrite get_app.
  assert (get key (scale_dict n pre) = None) as ->
    by (apply get_None; by rewrite keys_scale_dict).
  simpl. rewrite decide_True by done. simpl.
  rewrite set_middle by (by rewrite keys_scale_dict).
  specialize (IH (pre ++ [(key, cur)]) (<[new := scale_dict n pre
                 ++ (key, true_div cur n) :: suf]> h) new n).
  rewrite length_app in IH. simpl in IH. rewrite Nat.add_1_r in IH.
  rewrite IH.
  - by rewrite list_insert_insert_eq, <- app_assoc.
  - rewrite list_lookup_insert_eq by (by eapply lookup_lt_Some).
    by rewrite scale_dict_app, <- app_assoc.
  - by rewrite <- app_assoc.
Qed.

(** The first loop on replies that all carry a state dict. *)
Lemma collect_state_dicts_carries messages : ∀ (sds : list (StateDict T))
    acc (h : Heap.heap (StateDict T)),
  Forall2 (carries parameters_record_to_state_dict) messages sds →
  collect_state_dicts parameters_record_to_state_dict messages acc h =
    inr (acc ++ seq (length h) (length sds), h ++ sds).
Proof.
  induction messages as [|msg messages IH]; intros sds acc h Hall.
  { apply Forall2_nil_inv_l in Hall as ->. simpl.
    by rewrite !app_nil_r. }
  apply Forall2_cons_inv_l in Hall
    as (sd & sds' & (Herr & c & rec & Hc & Hrec & Hsd) & Hall & ->).
  simpl. rewrite Herr. unfold get_content. rewrite Hc. simpl.
  rewrite Hrec. simpl. rewrite Hsd. unfold Heap.alloc.
  rewrite (IH sds') by done. rewrite length_app. simpl.
  rewrite Nat.add_1_r, <- !app_assoc. done.
Qed.

(** On error-free replies with the same keys, the aggregate is the first
    state dict with itself and then every other state dict added to it,
    divided by the number of replies. *)
Lemma aggregate_spec (messages : list Msg) (sd0 : StateDict T)
    (rest : list (StateDict T)) :
  Forall2 (carries parameters_record_to_state_dict) messages (sd0 :: rest) →
  NoDup (keys sd0) →
  Forall (λ sd, keys sd ≡ₚ keys sd0) rest →
  aggregate_parameters_from_messages parameters_record_to_state_dict messages
    = inr (scale_dict (Z.of_nat (S (length rest)))
             (foldl (λ D E, add_dict E D) (add_dict sd0 sd0) rest)).
Proof.
  intros Hall Hnd Hkeys. unfold aggregate_parameters_from_messages.
  rewrite (collect_state_dicts_carries messages (sd0 :: rest)) by done.
  cbn [mbind py_bind app length seq lookup list_lookup or_raise].
  cbn [add_state_dicts]. rewrite length_seq.
  change (deref (sd0 :: rest) 0%nat) with sd0. unfold len.
  rewrite (add_items_spec (length sd0) 0 (sd0 :: rest) 0%nat 0%nat sd0 sd0);
    [| by right | by rewrite add_dict_nil | done | done | done | done].
  cbn [mbind py_bind list_insert insert].
  rewrite (add_state_dicts_others (seq 1 (length rest)) rest
             (add_dict sd0 sd0 :: rest) 0%nat (add_dict sd0 sd0)).
  - cbn [mbind py_bind list_insert insert].
    set (total := foldl (λ D E, add_dict E D) (add_dict sd0 sd0) rest).
    change (deref (total :: rest) 0%nat) with total.
    rewrite (average_items_spec total [] (total :: rest) 0%nat).
    + done.
    + done.
    + simpl. subst total.
      assert (∀ l D, Forall (λ sd : StateDict T, keys sd ≡ₚ keys sd0) l →
                keys D = keys sd0 →
                keys (foldl (λ D E, add_dict E D) D l) = keys sd0) as Hfold.
      { induction l as [|E l IH]; intros D Hl HD; [done|]. simpl.
        apply Forall_cons in Hl as [_ Hl]. apply IH; [done|].
        by rewrite keys_add_dict. }
      rewrite Hfold; [done | done | apply keys_add_dict].
  - apply Forall2_same_length_lookup_2; [by rewrite length_seq|].
    intros i d E Hd HE. apply lookup_seq in Hd as [-> _].
    split; [lia | done].
  - eapply Forall_impl; [exact Hkeys|]. intros E HE.
    rewrite keys_add_dict. split.
    + by rewrite HE.
    + intros key. by rewrite HE.
  - done.
  - by rewrite keys_add_dict.
Qed.

Lemma get_foldl_add_dict key (rest : list (StateDict T)) :
  ∀ (D : StateDict T) cur values,
  get key D = Some cur →
  mapM (get key) rest = Some values →
  get key (foldl (λ D E, add_dict E D) D rest)
    = Some (foldl np_add cur values).
Proof.
  induction rest as [|E rest IH]; intros D cur values HD Hvalues.
  { by injection Hvalues as <-. }
  apply mapM_Some_1, Forall2_cons_inv_l in Hvalues
    as (value & values' & HE & Hrest & ->).
  simpl. apply IH; [|by apply mapM_Some_2].
  by rewrite get_add_dict, HD, HE.
Qed.

(** For every key: the code divides by [k] the sum in which the value of
    the first reply is counted twice, where the mean divides the sum of
    the [k] values. *)
Lemma aggregate_value_of_key (messages : list Msg) (sd0 : StateDict T)
    (rest : list (StateDict T)) key value0 values :
  Forall2 (carries parameters_record_to_state_dict) messages (sd0 :: rest) →
  NoDup (keys sd0) →
  Forall (λ sd, keys sd ≡ₚ keys sd0) rest →
  get key sd0 = Some value0 →
  mapM (get key) rest = Some values →
  ∃ aggregated,
    aggregate_parameters_from_messages parameters_record_to_state_dict
      messages = inr aggregated ∧
    get key aggregated =
      Some (true_div (foldl np_add (np_add value0 value0) values)
              (Z.of_nat (length messages))) ∧
    arithmetic_mean (value0 :: values) =
      Some (true_div (foldl np_add value0 values)
              (Z.of_nat (length messages))).
Proof.
  intros Hall Hnd Hkeys Hget Hvalues. eexists.
  split; [by apply aggregate_spec|].
  assert (length messages = S (length rest)) as ->
    by (by apply Forall2_length in Hall).
  assert (length values = length rest) as Hlen.
  { apply mapM_Some_1, Forall2_length in Hvalues. done. }
  split.
  - rewrite get_scale_dict.
    erewrite get_foldl_add_dict; [done | | done].
    by rewrite get_add_dict, Hget.
  - unfold arithmetic_mean. simpl. by rewrite Hlen.
Qed.

Lemma construct_loop_app run_id recordset msg_type server_round
    (node_ids : list Z) (messages : list Msg) :
  construct_loop run_id recordset msg_type server_round node_ids messages =
  messages ++
    ((λ node_id, create_message run_id recordset msg_type node_id
                   (str server_round)) <$> node_ids).
Proof.
  revert messages.
  induction node_ids as [|node_id node_ids IH]; intros messages; simpl.
  - by rewrite app_nil_r.
  - rewrite IH. by rewrite <- app_assoc.
Qed.

(** C4: [construct_messages] returns one message per node id, in the
    order of [node_ids]; the i-th message is addressed to the i-th node id
    and every message carries [str(server_round)] as its group. *)
Theorem construct_messages_per_node (global_model : StateDict T)
    (run_id : Z) (node_ids : list Z) (msg_type : MessageType)
    (server_round : Z) :
  let messages :=
    construct_messages (ParametersRecord := ParametersRecord)
      state_dict_to_parameters_record global_model run_id node_ids msg_type
      server_round in
  length messages = length node_ids ∧
  (λ msg, dst_node_id (metadata msg)) <$> messages = node_ids ∧
  Forall (λ msg, group_id (metadata msg) = str server_round) messages.
Proof.
  unfold construct_messages. rewrite construct_loop_app. simpl.
  split_and!.
  - by rewrite length_fmap.
  - induction node_ids as [|n ns IH]; [done|].
    rewrite !fmap_cons, IH. done.
  - apply Forall_fmap. by apply Forall_forall.
Qed.

Section round_order.
Variable Driver : Type.
Variable driver_run_id : Driver → Z.
Variable get_node_ids : Driver → list Z * Driver.
Variable send_and_receive : Driver → list Msg → list Msg * Driver.

Abbreviation body :=
  (round_body parameters_record_to_state_dict
     state_dict_to_parameters_record Driver driver_run_id get_node_ids
     send_and_receive).
Abbreviation loop :=
  (round_loop parameters_record_to_state_dict
     state_dict_to_parameters_record Driver driver_run_id get_node_ids
     send_and_receive).

(** What one iteration appends to the trace: entries of its own round,
    among them the return of the rendezvous. *)
Lemma round_body_trace server_round st :
  ∃ evs, trace Driver (body server_round st).1 = trace Driver st ++ evs ∧
         Forall (λ e : Event, e.1 = server_round) evs ∧
         (server_round, SendAndReceiveReturn) ∈ evs.
Proof.
  unfold round_body.
  destruct (get_node_ids (ServerApp.driver Driver st)) as [node_ids drv].
  destruct (send_and_receive drv _) as [replies drv'].
  destruct (aggregate_parameters_from_messages _ replies) as [e|sd]; simpl;
    rewrite <- !app_assoc; simpl; eexists; (split; [reflexivity|]);
    (split; [repeat constructor | in_list]).
Qed.

(** Every [ConstructMessages] entry belongs to a round of the loop, and
    each earlier round of the loop has returned from its rendezvous
    before it. *)
Lemma round_loop_order rounds st :
  ∃ ext, trace Driver (loop rounds st).1 = trace Driver st ++ ext ∧
    ∀ pre post m, ext = pre ++ (m, ConstructMessages) :: post →
      ∃ rs1 rs2, rounds = rs1 ++ m :: rs2 ∧
        ∀ r, r ∈ rs1 → (r, SendAndReceiveReturn) ∈ pre.
Proof.
  revert st. induction rounds as [|r rounds IH]; intros st; simpl.
  { exists []. rewrite app_nil_r. split; [done|].
    intros pre post m Heq. by destruct pre. }
  destruct (round_body_trace r st) as (evs & Htr & Htag & Hret).
  assert (∀ pre post m, evs = pre ++ (m, ConstructMessages) :: post →
            ∃ rs1 rs2, r :: rounds = rs1 ++ m :: rs2 ∧
              ∀ r', r' ∈ rs1 → (r', SendAndReceiveReturn) ∈ pre) as Hown.
  { intros pre post m ->. exists [], rounds. split.
    - apply Forall_app in Htag as [_ Htag].
      apply Forall_cons in Htag as [Hm _]. simpl in Hm. by subst.
    - intros r' Hin. by apply elem_of_nil in Hin. }
  destruct (body r st) as [st' [e|]] eqn:Hbody; simpl in *.
  { exists evs. split; [done | exact Hown]. }
  destruct (IH st') as (ext' & Htr' & Hord).
  exists (evs ++ ext'). split; [by rewrite Htr', Htr, app_assoc|].
  intros pre post m Heq. symmetry in Heq.
  apply app_eq_inv in Heq as [(k & -> & Hk)|(k & -> & Hk)].
  - destruct (Hord k post m Hk) as (rs1 & rs2 & -> & Hrs).
    exists (r :: rs1), rs2. split; [done|].
    intros r' [->|Hin]%elem_of_cons; apply elem_of_app; [by left|].
    right. by apply Hrs.
  - destruct k as [|e k]; simpl in Hk.
    + destruct (Hord [] post m (eq_sym Hk)) as (rs1 & rs2 & -> & Hrs).
      exists (r :: rs1), rs2. split; [done|].
      intros r' [->|Hin]%elem_of_cons.
      * by rewrite app_nil_r in Hret.
      * specialize (Hrs _ Hin). by apply elem_of_nil in Hrs.
    + injection Hk as <- ->. by eapply Hown.
Qed.

Lemma range_split_pred num_rounds rs1 rs2 n :
  0 ≤ n → range num_rounds = rs1 ++ (n + 1) :: rs2 → n ∈ rs1.
Proof.
  intros Hn Heq.
  assert (range num_rounds !! length rs1 = Some (n + 1)) as Hl.
  { rewrite Heq. by rewrite list_lookup_middle. }
  unfold range in Hl. apply lookup_seqZ in Hl as [Hval Hlt].
  assert (range num_rounds !! Z.to_nat n = Some n) as Hn'.
  { unfold range. rewrite lookup_seqZ. lia. }
  rewrite Heq, lookup_app_l in Hn' by lia.
  by eapply list_elem_of_lookup_2.
Qed.

(** C5: in the trace of [main], the messages of round [n+1] are
    constructed only after the rendezvous of round [n] has returned. *)
Theorem main_rounds_not_pipelined (drv : Driver) (num_rounds : Z)
    (net : StateDict T) (pre post : list Event) (n : Z) :
  0 ≤ n →
  trace Driver
    (main parameters_record_to_state_dict state_dict_to_parameters_record
       Driver driver_run_id get_node_ids send_and_receive drv num_rounds
       net).1
    = pre ++ (n + 1, ConstructMessages) :: post →
  (n, SendAndReceiveReturn) ∈ pre.
Proof.
  intros Hn Htr. unfold main in Htr.
  destruct (round_loop_order (range num_rounds)
              {| driver := drv; global_model := net; trace := [] |})
    as (ext & Hext & Hord).
  rewrite Hext in Htr. simpl in Htr.
  destruct (Hord pre post (n + 1) Htr) as (rs1 & rs2 & Hsplit & Hrs).
  apply Hrs. by eapply range_split_pred.
Qed.
End round_order.
End app_facts.
End ServerAppProofs.

(** ** [build-docker-image-matrix.py]: the supernode filter *)
Module DockerMatrixProofs.
Import DockerMatrix.

Lemma supernode_filter_truthy (image : BaseImage) :
  truthy (supernode_filter image) = true.
Proof. reflexivity. Qed.

Lemma generate_binary_images_all name images tags_fn filter :
  (∀ image, truthy (filter image) = true) →
  generate_binary_images name images tags_fn (Some filter) =
    (λ image, new_binary_image name image tags_fn) <$> images.
Proof.
  intros Hall. unfold generate_binary_images. simpl.
  induction images as [|image images IH]; [done|].
  change (?f <$> image :: images) with (f image :: (f <$> images)).
  rewrite <- IH. cbn. by rewrite Hall.
Qed.

(** C10: the ["supernode"] filter is true of every base image, so the
    matrix holds one supernode image per base image, in order; the base
    images of the main block are the three Ubuntu ones, the Alpine one and
    the fifteen CUDA ones, and all nineteen are kept. *)
Theorem supernode_filter_keeps_every_base_image (flwr_version : string) :
  (∀ image, truthy (supernode_filter image) = true) ∧
  (∀ images,
     supernode_images images =
       (λ image, new_binary_image "supernode" image
                   (Some tag_latest_alpine_with_flwr_version)) <$> images) ∧
  (∀ images, base_image <$> supernode_images images = base_tag <$> images) ∧
  ∃ images,
    base_images flwr_version = inr images ∧
    length (supernode_images images) = length images ∧
    flavour <$> images =
      [ (UBUNTU, Some CpuVariant, "3.9");
        (UBUNTU, Some CpuVariant, "3.10");
        (UBUNTU, Some CpuVariant, "3.11");
        (ALPINE, Some CpuVariant, "3.11");
        (UBUNTU, Some (CudaVariant "11.2"), "3.9");
        (UBUNTU, Some (CudaVariant "11.2"), "3.10");
        (UBUNTU, Some (CudaVariant "11.2"), "3.11");
        (UBUNTU, Some (CudaVariant "11.8"), "3.9");
        (UBUNTU, Some (CudaVariant "11.8"), "3.10");
        (UBUNTU, Some (CudaVariant "11.8"), "3.11");
        (UBUNTU, Some (CudaVariant "12.1"), "3.9");
        (UBUNTU, Some (CudaVariant "12.1"), "3.10");
        (UBUNTU, Some (CudaVariant "12.1"), "3.11");
        (UBUNTU, Some (CudaVariant "12.3"), "3.9");
        (UBUNTU, Some (CudaVariant "12.3"), "3.10");
        (UBUNTU, Some (CudaVariant "12.3"), "3.11");
        (UBUNTU, Some (CudaVariant "12.4"), "3.9");
        (UBUNTU, Some (CudaVariant "12.4"), "3.10");
        (UBUNTU, Some (CudaVariant "12.4"), "3.11") ].
Proof.
  assert (∀ images,
     supernode_images images =
       (λ image, new_binary_image "supernode" image
                   (Some tag_latest_alpine_with_flwr_version)) <$> images)
    as Hall.
  { intros images. unfold supernode_images.
    apply generate_binary_images_all, supernode_filter_truthy. }
  split_and!.
  - apply supernode_filter_truthy.
  - exact Hall.
  - intros images. rewrite Hall.
    induction images as [|image images IH]; [done|].
    rewrite !fmap_cons. by rewrite IH.
  - eexists. split; [reflexivity|]. split.
    + rewrite Hall. by rewrite length_fmap.
    + reflexivity.
Qed.
End DockerMatrixProofs.

(** ** The rendezvous *)
Module TaskStoreProofs.
Import TaskStore.

Lemma evolves_refl st : evolves st st.
Proof. split; [done|]. intros i t Hi. by exists t. Qed.

Lemma evolves_trans st1 st2 st3 :
  evolves st1 st2 → evolves st2 st3 → evolves st1 st3.
Proof.
  intros [Hl12 H12] [Hl23 H23]. split; [lia|].
  intros i t Hi. destruct (H12 i t Hi) as (t2 & Hi2 & Hid2 & Hterm2).
  destruct (H23 i t2 Hi2) as (t3 & Hi3 & Hid3 & Hterm3).
  exists t3. split_and!; [done | congruence |].
  intros Ht. rewrite Hterm3, Hterm2; [done | done |].
  by rewrite Hterm2.
Qed.

(** A status change that leaves terminal tasks alone, applied to every
    record. *)
Lemma evolves_fmap (f : Task → Task) st :
  (∀ t, with_status Pending (f t) = with_status Pending t ∧
        (terminal (status t) = true → status (f t) = status t)) →
  evolves st (f <$> st).
Proof.
  intros Hf. split; [by rewrite length_fmap|].
  intros i t Hi. exists (f t). rewrite list_lookup_fmap, Hi.
  split; [done | apply Hf].
Qed.

Lemma evolves_insert st i t t' :
  st !! i = Some t →
  with_status Pending t' = with_status Pending t →
  (terminal (status t) = true → status t' = status t) →
  evolves st (<[i := t']> st).
Proof.
  intros Hi Hid Hterm. split; [by rewrite length_insert|].
  intros j tj Hj. destruct (decide (i = j)) as [->|Hne].
  - exists t'. rewrite list_lookup_insert_eq by (by eapply lookup_lt_Some).
    assert (tj = t) as -> by congruence. done.
  - exists tj. by rewrite list_lookup_insert_ne.
Qed.

Lemma evolves_pull_pending node_id st :
  evolves st (pull_pending node_id st).2.
Proof.
  apply evolves_fmap. intros t. unfold pending_for.
  destruct t as [? ? ? ? ? ? ? ? []]; simpl; try done.
  by destruct (bool_decide _).
Qed.

Lemma evolves_submit_reply id r st :
  evolves st (submit_reply id r st).2.
Proof.
  unfold submit_reply. destruct (st !! id) as [t|] eqn:Hid;
    [|apply evolves_refl].
  destruct (status t) eqn:Hs; try apply evolves_refl. simpl.
  eapply evolves_insert; [done | done |]. by rewrite Hs.
Qed.

Lemma evolves_reap_expired now st : evolves st (reap_expired now st).2.
Proof.
  apply evolves_fmap. intros t. unfold expired.
  destruct (terminal (status t)) eqn:Ht; simpl; [done|].
  by destruct (bool_decide _).
Qed.

Lemma evolves_act_all actions st : evolves st (act_all actions st).
Proof.
  unfold act_all. revert st.
  induction actions as [|a actions IH]; intros st; simpl;
    [apply evolves_refl|].
  eapply evolves_trans; [|apply IH].
  destruct a; [apply evolves_pull_pending | apply evolves_submit_reply].
Qed.

Lemma evolves_poll ticks t world ids st :
  evolves st (poll ticks t world ids st).
Proof.
  revert t st. induction ticks as [|ticks IH]; intros t st; simpl;
    [apply evolves_refl|].
  destruct (all_terminal ids st); [apply evolves_refl|].
  eapply evolves_trans; [|apply IH].
  eapply evolves_trans; [apply evolves_act_all | apply evolves_reap_expired].
Qed.

(** The group is created at the end of the store, in request order. *)
Lemma create_all_spec now ttl reqs st :
  let r := create_all now ttl reqs st in
  r.1 = seq (length st) (length reqs) ∧
  length r.2 = (length st + length reqs)%nat ∧
  (∀ i t, st !! i = Some t → r.2 !! i = Some t) ∧
  (∀ i req, reqs !! i = Some req →
     r.2 !! (length st + i)%nat =
       Some {| task_id := (length st + i)%nat; run_id := req_run_id req;
               group_id := req_group_id req; dst := req_dst req;
               kind := req_kind req; payload := req_payload req;
               created_at := now; ttl := ttl; status := Pending |}).
Proof.
  revert st. induction reqs as [|req reqs IH]; intros st; simpl.
  { split_and!; [done | lia | done | done]. }
  specialize (IH (st ++ [ {| task_id := length st;
    run_id := req_run_id req; group_id := req_group_id req;
    dst := req_dst req; kind := req_kind req; payload := req_payload req;
    created_at := now; ttl := ttl; status := Pending |} ])).
  destruct (create_all now ttl reqs _) as [ids st2]. simpl in *.
  rewrite length_app in IH. simpl in IH.
  destruct IH as (Hids & Hlen & Hold & Hnew).
  split_and!.
  - rewrite Hids. by rewrite Nat.add_1_r.
  - lia.
  - intros i t Hi. apply Hold. by apply lookup_app_l_Some.
  - intros [|i] req' Hi; simpl in Hi.
    + injection Hi as <-. rewrite Nat.add_0_r. apply Hold.
      by rewrite list_lookup_middle.
    + specialize (Hnew i req' Hi).
      replace (length st + S i)%nat with (length st + 1 + i)%nat by lia.
      rewrite Hnew. repeat f_equal; lia.
Qed.

Lemma reply_of_force_timed_out t : reply_of (force_timed_out t) = reply_of t.
Proof. by destruct t as [? ? ? ? ? ? ? ? []]. Qed.

Lemma force_timeout_lookup ids st i :
  force_timeout ids st !! i =
    if bool_decide (i ∈ ids) then force_timed_out <$> st !! i else st !! i.
Proof.
  unfold force_timeout. revert st.
  induction ids as [|id ids IH]; intros st; simpl; [done|].
  rewrite IH. destruct (decide (i = id)) as [->|Hne].
  - rewrite list_lookup_alter_eq.
    rewrite (bool_decide_eq_true_2 (id ∈ id :: ids))
      by apply list_elem_of_here.
    destruct (st !! id) as [t|]; simpl; [|by destruct (bool_decide _)].
    destruct (bool_decide _); simpl; [|done].
    f_equal. unfold force_timed_out at 1.
    destruct t as [? ? ? ? ? ? ? ? []]; done.
  - rewrite list_lookup_alter_ne by done.
    destruct (decide (i ∈ ids)) as [Hin|Hnin].
    + rewrite !bool_decide_eq_true_2; [done | by apply list_elem_of_further
                                        | done].
    + rewrite !bool_decide_eq_false_2; [done | | done].
      intros [?|?]%elem_of_cons; done.
Qed.

Lemma entry_force_timeout ids st i :
  entry (force_timeout ids st) i = entry st i.
Proof.
  unfold entry. rewrite force_timeout_lookup.
  destruct (bool_decide _); [|done].
  destruct (st !! i) as [t|]; simpl; [apply reply_of_force_timed_out | done].
Qed.

Lemma count_replies_fmap (f : nat → option Reply) ids :
  count_replies (f <$> ids) = length (filter (λ id, is_Some (f id)) ids).
Proof.
  unfold count_replies. induction ids as [|id ids IH]; [done|].
  rewrite fmap_cons. destruct (f id) as [r|] eqn:Hf.
  - rewrite !filter_cons_True by (by rewrite ?Hf). simpl. by rewrite IH.
  - rewrite !filter_cons_False; [done | | ].
    + rewrite Hf. by intros [? ?].
    + by intros [? ?].
Qed.

Lemma count_replies_absent results :
  (count_replies results + count_absent results)%nat = length results.
Proof.
  unfold count_replies, count_absent.
  induction results as [|[r|] results IH]; [done | |].
  - rewrite filter_cons_True by done.
    rewrite (filter_cons_False (λ r, r = None)) by done. simpl. lia.
  - rewrite filter_cons_False by (by intros [? ?]).
    rewrite (filter_cons_True (λ r, r = None)) by done. simpl. lia.
Qed.

Lemma length_force_timeout ids st :
  length (force_timeout ids st) = length st.
Proof.
  unfold force_timeout. revert st.
  induction ids as [|id ids IH]; intros st; simpl; [done|].
  rewrite IH. apply length_alter.
Qed.

Lemma evolves_force_timeout ids st : evolves st (force_timeout ids st).
Proof.
  split; [by rewrite length_force_timeout|].
  intros i t Hi. rewrite force_timeout_lookup, Hi.
  destruct (bool_decide _); simpl; [|by exists t].
  exists (force_timed_out t). split; [done|].
  unfold force_timed_out. by destruct (terminal (status t)).
Qed.

Lemma evolves_create_all now ttl reqs st :
  evolves st (create_all now ttl reqs st).2.
Proof.
  destruct (create_all_spec now ttl reqs st) as (_ & Hlen & Hold & _).
  split; [lia|]. intros i t Hi. exists t. split; [by apply Hold | done].
Qed.

Lemma with_status_id t : with_status (status t) t = t.
Proof. by destruct t. Qed.

(** One action of the participants, seen from one task. *)
Lemma act_lookup (a : Action) (st : Store) id t :
  st !! id = Some t →
  act a st !! id =
    Some (with_status (step_status id (dst t) (status t) a) t).
Proof.
  intros Hid. destruct a as [n|i r]; simpl.
  - rewrite list_lookup_fmap, Hid. simpl. f_equal.
    unfold pending_for, step_status.
    destruct (status t) eqn:Hs; try (by rewrite <- Hs, with_status_id).
    destruct (decide (n = dst t)) as [->|Hne].
    + by rewrite bool_decide_eq_true_2.
    + rewrite bool_decide_eq_false_2 by congruence.
      by rewrite <- Hs, with_status_id.
  - unfold submit_reply, step_status.
    destruct (decide (i = id)) as [->|Hne].
    + rewrite Hid. destruct (status t) eqn:Hs; simpl;
        try (by rewrite Hid, <- Hs, with_status_id).
      apply list_lookup_insert_eq. by eapply lookup_lt_Some.
    + trans (Some t).
      * destruct (st !! i) as [ti|]; [|done].
        destruct (status ti); simpl; try done.
        by rewrite list_lookup_insert_ne.
      * f_equal. destruct (status t) eqn:Hs; simpl;
          by rewrite <- Hs, with_status_id.
Qed.

Lemma act_all_lookup (actions : list Action) : ∀ (st : Store) id t,
  st !! id = Some t →
  act_all actions st !! id =
    Some (with_status
            (foldl (step_status id (dst t)) (status t) actions) t).
Proof.
  unfold act_all.
  induction actions as [|a actions IH]; intros st id t Hid; simpl.
  { by rewrite with_status_id. }
  erewrite IH by (by apply act_lookup). done.
Qed.

(** A task that has not reached [created_at + ttl] is not reaped. *)
Lemma reap_expired_lookup now (st : Store) id t :
  st !! id = Some t →
  (now ≤ created_at t + ttl t)%nat →
  (reap_expired now st).2 !! id = Some t.
Proof.
  intros Hid Hnow. simpl. rewrite list_lookup_fmap, Hid. simpl.
  unfold expired. rewrite (bool_decide_eq_false_2 (_ < _)%nat) by lia.
  by rewrite andb_false_r.
Qed.

Lemma step_status_terminal id node_id s actions :
  terminal s = true → foldl (step_status id node_id) s actions = s.
Proof.
  intros Hs. induction actions as [|a actions IH]; [done|]. simpl.
  assert (step_status id node_id s a = s) as ->; [|done].
  by destruct a, s.
Qed.

Lemma actions_within_S world now timeout :
  actions_within world now (S timeout) =
    world now ++ actions_within world (S now) timeout.
Proof. done. Qed.

(** The wait, seen from one task of the group that does not expire while
    the rendezvous polls: its status follows the actions of the
    participants during the whole timeout. *)
Lemma poll_lookup world ids id ticks : ∀ now (st : Store) t,
  st !! id = Some t →
  id ∈ ids →
  (now + ticks ≤ created_at t + ttl t)%nat →
  poll ticks now world ids st !! id =
    Some (with_status
            (foldl (step_status id (dst t)) (status t)
               (actions_within world now ticks)) t).
Proof.
  induction ticks as [|ticks IH]; intros now st t Hid Hin Hlive.
  { simpl. by rewrite with_status_id. }
  cbn [poll]. destruct (all_terminal ids st) eqn:Hall.
  - assert (terminal (status t) = true) as Hterm.
    { unfold all_terminal in Hall.
      rewrite forallb_forall in Hall.
      specialize (Hall id (proj1 (list_elem_of_In _ _) Hin)).
      unfold terminal_at in Hall. by rewrite Hid in Hall. }
    by rewrite step_status_terminal, with_status_id.
  - rewrite actions_within_S, foldl_app.
    set (s1 := foldl (step_status id (dst t)) (status t) (world now)).
    erewrite (IH (S now) _ (with_status s1 t)).
    + done.
    + apply reap_expired_lookup; [by apply act_all_lookup|]. simpl. lia.
    + done.
    + simpl. lia.
Qed.

(** From [InFlight], the status is decided by the first reply submitted
    for the task. *)
Lemma foldl_step_status_InFlight id node_id actions :
  foldl (step_status id node_id) InFlight actions =
    match first_submit id actions with
    | Some r => reply_status r
    | None => InFlight
    end.
Proof.
  induction actions as [|[n|i r] actions IH]; simpl; [done | done |].
  destruct (decide (i = id)); [|done].
  apply step_status_terminal. by destruct r.
Qed.

(** From [Pending], the status is decided by the participant's reply;
    without one the task is left [Pending] or [InFlight]. *)
Lemma foldl_step_status_Pending id node_id actions :
  match answer id node_id actions with
  | Some r =>
      foldl (step_status id node_id) Pending actions = reply_status r
  | None =>
      terminal (foldl (step_status id node_id) Pending actions) = false
  end.
Proof.
  induction actions as [|[n|i r] actions IH]; simpl; [done | | done].
  destruct (decide (n = node_id)); [|done].
  rewrite foldl_step_status_InFlight. by destruct (first_submit id actions).
Qed.

(** A task of the group after the rendezvous: the record created for its
    request, with the status its participant's reply decides. *)
Lemma group_task_final (reqs : list Request) (timeout now : nat)
    (world : nat → list Action) (st : Store) i req :
  reqs !! i = Some req →
  (send_and_receive reqs timeout now world st).2 !! (length st + i)%nat =
    Some {| task_id := (length st + i)%nat; run_id := req_run_id req;
            group_id := req_group_id req; dst := req_dst req;
            kind := req_kind req; payload := req_payload req;
            created_at := now; ttl := timeout;
            status := final_status
                        (answer (length st + i) (req_dst req)
                           (actions_within world now timeout)) |}.
Proof.
  intros Hi. unfold send_and_receive, rendezvous_wait.
  pose proof (create_all_spec now timeout reqs st) as Hcreate.
  destruct (create_all now timeout reqs st) as [ids st1].
  simpl in Hcreate. destruct Hcreate as (-> & _ & _ & Hnew). simpl.
  assert ((length st + i)%nat ∈ seq (length st) (length reqs)) as Hin.
  { apply list_elem_of_lookup. exists i. apply lookup_seq.
    split; [done | by eapply lookup_lt_Some]. }
  rewrite force_timeout_lookup, bool_decide_eq_true_2 by done.
  erewrite poll_lookup; [|by apply Hnew | done | simpl; lia].
  simpl. f_equal. unfold force_timed_out. simpl.
  pose proof (foldl_step_status_Pending (length st + i) (req_dst req)
                (actions_within world now timeout)) as Hstatus.
  destruct (answer _ _ _) as [r|]; simpl.
  - rewrite Hstatus. by destruct r.
  - by rewrite Hstatus.
Qed.

(** C1: [send_and_receive] returns one entry per request, in request
    order.  Entry [i] is the reply the participant of request [i] gave
    within the timeout (it pulled its pending tasks and a reply to the
    task was submitted afterwards, during the [timeout] ticks), and is
    absent when there was none.  So where [k] participants replied within
    the timeout, the result holds exactly [k] replies and [N - k]
    absences.  The task created for request [i] keeps the destination,
    group and payload of the request, and is terminal in the store
    afterwards: [Replied] or [Errored] with its reply, [TimedOut] without
    one; no earlier record of the store is lost. *)
Theorem send_and_receive_one_entry_per_task (reqs : list Request)
    (timeout now : nat) (world : nat → list Action) (st : Store) :
  let actions := actions_within world now timeout in
  let answers := replies_within world now timeout (length st) reqs in
  let k := count_replies answers in
  let waited := rendezvous_wait reqs timeout now world st in
  let r := send_and_receive reqs timeout now world st in
  let results := r.1 in
  let st' := r.2 in
  length results = length reqs ∧
  results = answers ∧
  (∀ i req, reqs !! i = Some req →
     ∃ task, st' !! (length st + i)%nat = Some task ∧
       results !! i = Some (reply_of task) ∧
       dst task = req_dst req ∧
       group_id task = req_group_id req ∧
       kind task = req_kind req ∧
       payload task = req_payload req ∧
       status task =
         final_status (answer (length st + i) (req_dst req) actions) ∧
       terminal (status task) = true ∧
       (reply_of task = None → status task = TimedOut)) ∧
  count_replies results = k ∧
  count_absent results = (length reqs - k)%nat ∧
  (k ≤ length reqs)%nat ∧
  replied_in waited.2 waited.1 = k ∧
  evolves st st'.
Proof.
  intros actions answers k waited r results st'.
  assert (results = answers) as Hresults.
  { apply list_eq. intros i. subst results answers r.
    unfold replies_within. rewrite list_lookup_imap.
    destruct (reqs !! i) as [req|] eqn:Hi; simpl.
    - pose proof (group_task_final reqs timeout now world st i req Hi)
        as Hfinal.
      unfold send_and_receive, rendezvous_wait in *.
      pose proof (create_all_spec now timeout reqs st) as Hcreate.
      destruct (create_all now timeout reqs st) as [ids st1].
      simpl in Hcreate. destruct Hcreate as (-> & _). simpl in *.
      rewrite list_lookup_fmap, lookup_seq_lt
        by (by eapply lookup_lt_Some).
      simpl. unfold entry. rewrite Hfinal. simpl. f_equal.
      by destruct (answer _ _ _) as [[]|].
    - unfold send_and_receive, rendezvous_wait.
      pose proof (create_all_spec now timeout reqs st) as Hcreate.
      destruct (create_all now timeout reqs st) as [ids st1].
      simpl in Hcreate. destruct Hcreate as (-> & _). simpl.
      rewrite list_lookup_fmap, lookup_seq_ge; [done|].
      by apply lookup_ge_None. }
  assert (length results = length reqs) as Hlen.
  { rewrite Hresults. subst answers. unfold replies_within.
    apply length_imap. }
  pose proof (count_replies_absent results) as Hsum.
  rewrite Hlen in Hsum.
  assert (count_replies results = k) as Hk by (by rewrite Hresults).
  split_and!; [done | done | | done | lia | lia | |].
  - intros i req Hi.
    pose proof (group_task_final reqs timeout now world st i req Hi)
      as Hfinal.
    eexists. split; [exact Hfinal|]. simpl.
    assert (results !! i =
            Some (answer (length st + i) (req_dst req) actions)) as Hri.
    { rewrite Hresults. subst answers. unfold replies_within.
      by rewrite list_lookup_imap, Hi. }
    split_and!; try done.
    + rewrite Hri. f_equal. unfold reply_of. simpl.
      by destruct (answer _ _ _) as [[]|].
    + by destruct (answer _ _ _) as [[]|].
    + unfold reply_of. simpl. by destruct (answer _ _ _) as [[]|].
  - rewrite <- Hk. subst waited results r.
    unfold send_and_receive, rendezvous_wait.
    destruct (create_all now timeout reqs st) as [ids st1]. simpl.
    rewrite count_replies_fmap. unfold replied_in. f_equal.
    apply list_filter_iff. intros id. by rewrite entry_force_timeout.
  - subst st' r. unfold send_and_receive, rendezvous_wait.
    pose proof (evolves_create_all now timeout reqs st) as Hev1.
    destruct (create_all now timeout reqs st) as [ids st1].
    simpl in Hev1. simpl.
    eapply evolves_trans; [exact Hev1|].
    eapply evolves_trans; [apply evolves_poll | apply evolves_force_timeout].
Qed.
End TaskStoreProofs.

(** ** The code on concrete inputs *)
Module Instances.
Import PyDict ServerApp ScalarApp.

Lemma register_registers reg :
  NodeRegistry.registered (NodeRegistry.register reg).2
    (NodeRegistry.register reg).1.
Proof.
  unfold NodeRegistry.registered, NodeRegistry.register. simpl.
  rewrite PyDictFacts.get_set_eq. by eexists.
Qed.

Lemma register_keeps reg id :
  NodeRegistry.registered reg id →
  NodeRegistry.registered (NodeRegistry.register reg).2 id.
Proof.
  unfold NodeRegistry.registered, NodeRegistry.register. simpl.
  intros Hreg. destruct (decide (NodeRegistry.next_id reg = id)) as [->|Hne].
  - rewrite PyDictFacts.get_set_eq. by eexists.
  - by rewrite PyDictFacts.get_set_ne.
Qed.

(** Three nodes registered in the empty registry get the partitions
    0, 1 and 2. *)
Lemma register_nodes_bijection_witness :
  0 ≤ 3 ∧
  NoDup (VceApi.created_ids _ NodeRegistry.register (Z.to_nat 3)
           NodeRegistry.empty) ∧
  let ids :=
    VceApi.created_ids _ NodeRegistry.register (Z.to_nat 3)
      NodeRegistry.empty in
  let m :=
    (VceApi._register_nodes _ NodeRegistry.register 3
       NodeRegistry.empty).1 in
  Z.of_nat (len m) = 3 ∧
  keys m = ids ∧
  values m = range 3 ∧
  (∀ i node_id, ids !! i = Some node_id → get node_id m = Some (Z.of_nat i)) ∧
  (∀ node_id p, get node_id m = Some p →
     0 ≤ p < 3 ∧ ids !! Z.to_nat p = Some node_id).
Proof.
  assert (NoDup (VceApi.created_ids _ NodeRegistry.register (Z.to_nat 3)
                   NodeRegistry.empty)) as Hnd.
  { apply (bool_decide_unpack _). vm_compute. exact I. }
  split; [lia|]. split; [exact Hnd|].
  apply (VceApiProofs.register_nodes_bijection _ NodeRegistry.register 3
           NodeRegistry.empty); [lia | exact Hnd].
Defined.

(** A config that is not JSON, after two registrations. *)
Lemma start_vce_invalid_json_witness :
  Json.loads "{not json" = None ∧
  let r :=
    VceApi.start_vce _ NodeRegistry.register unit tt _ Json.loads 2
      "app:app" "ray" "{not json" NodeRegistry.empty "." [] in
  r.1.1 = inl JSONDecodeError ∧
  r.1.2 =
    (VceApi._register_nodes _ NodeRegistry.register 2 NodeRegistry.empty).2 ∧
  ∀ node_id,
    node_id ∈ VceApi.created_ids _ NodeRegistry.register (Z.to_nat 2)
                NodeRegistry.empty →
    NodeRegistry.registered r.1.2 node_id.
Proof.
  assert (Json.loads "{not json" = None) as Hbad by (vm_compute; reflexivity).
  split; [exact Hbad|].
  pose proof (VceApiProofs.start_vce_invalid_json_not_atomic
                _ NodeRegistry.register unit tt _ Json.loads
                NodeRegistry.registered register_registers register_keeps
                2 "app:app" "ray" "{not json" "." NodeRegistry.empty []
                Hbad) as (H1 & H2 & _ & _ & H5).
  split; [exact H1|]. split; [exact H2 | exact H5].
Defined.

(** An error reply between two replies. *)
Lemma aggregate_ignores_error_messages_witness :
  has_error (error_reply 2) = true ∧
  aggregate ([reply 1 [("w", 1%Q)]] ++ error_reply 2
               :: [reply 3 [("w", 3%Q)]]) =
  aggregate ([reply 1 [("w", 1%Q)]] ++ [reply 3 [("w", 3%Q)]]).
Proof.
  split; [reflexivity|].
  apply (ServerAppProofs.aggregate_ignores_error_messages id
           [reply 1 [("w", 1%Q)]] [reply 3 [("w", 3%Q)]] (error_reply 2)).
  reflexivity.
Defined.

(** A round in which both nodes failed. *)
Lemma aggregate_all_failed_raises_witness :
  Forall (λ msg, has_error msg = true) [error_reply 1; error_reply 2] ∧
  aggregate [error_reply 1; error_reply 2] = inl IndexError.
Proof.
  assert (Forall (λ msg : Message (StateDict Q), has_error msg = true)
            [error_reply 1; error_reply 2]) as Hall
    by (repeat constructor).
  split; [exact Hall|].
  apply (ServerAppProofs.aggregate_all_failed_raises id _ Hall).
Defined.

(** Two rounds with the echo driver: the messages of round 1 come after
    the rendezvous of round 0. *)
Lemma main_rounds_not_pipelined_witness :
  let tr := trace nat (echo_main 2 [("w", 1%Q)]).1 in
  0 ≤ 0 ∧
  tr = take 11 tr ++ (0 + 1, ConstructMessages) :: drop 12 tr ∧
  (0, SendAndReceiveReturn) ∈ take 11 tr.
Proof.
  intros tr.
  assert (tr = take 11 tr ++ (0 + 1, ConstructMessages) :: drop 12 tr)
    as Htr by (vm_compute; reflexivity).
  split; [lia|]. split; [exact Htr|].
  apply (ServerAppProofs.main_rounds_not_pipelined id id nat (λ _, 1)
           echo_get_node_ids echo_send_and_receive O 2 [("w", 1%Q)]
           (take 11 tr) (drop 12 tr) 0); [lia | exact Htr].
Defined.

(** C3: the aggregate is not the mean.  [new_global_dict] starts as the
    first state dict and the loop then adds every state dict to it, the
    first one included: a single reply with [w = 1] yields [w = 2], and
    the replies [w = 1] and [w = 3] yield [5/2] where the mean is [2]. *)
Theorem aggregate_counts_first_reply_twice :
  aggregate [reply 1 [("w", 1%Q)]] = inr [("w", 2%Q)] ∧
  mean_state_dict [[("w", 1%Q)]] = Some [("w", 1%Q)] ∧
  aggregate [reply 1 [("w", 1%Q)]; reply 2 [("w", 3%Q)]]
    = inr [("w", (5 # 2)%Q)] ∧
  mean_state_dict [[("w", 1%Q)]; [("w", 3%Q)]] = Some [("w", 2%Q)].
Proof. split_and!; vm_compute; reflexivity. Qed.
End Instances.

(* ################################################################# *)
(** * Further properties of the code *)

(** ** Dicts read from the back *)
Module PyDictOrder.
Import PyDict PyDictFacts.
Section dict_order.
Context {K V : Type} `{EqDecision K}.
Implicit Types (k : K) (v : V) (d : dict K V).

Lemma keys_reverse d : keys (reverse d) = reverse (keys d).
Proof. unfold keys. apply fmap_reverse. Qed.

(** Looking a key up in the reversed list finds its last entry. *)
Lemma get_reverse_Some k v d :
  get k (reverse d) = Some v ↔
  ∃ i, d !! i = Some (k, v) ∧
       ∀ j kv, (i < j)%nat → d !! j = Some kv → kv.1 ≠ k.
Proof.
  induction d as [|[k0 v0] d IH].
  { split; [done | by intros (i & Hi & _)]. }
  rewrite reverse_cons, get_app. simpl.
  destruct (get k (reverse d)) as [v'|] eqn:Hrev.
  - split.
    + intros [= ->]. destruct (proj1 IH eq_refl) as (i & Hi & Hlast).
      exists (S i). split; [done|]. intros [|j] kv Hlt Hj; [lia|].
      apply (Hlast j kv); [lia | done].
    + intros ([|i] & Hi & Hlast); simpl in Hi.
      * injection Hi as -> ->. exfalso.
        apply get_Some_keys in Hrev.
        rewrite keys_reverse, elem_of_reverse in Hrev.
        apply list_elem_of_lookup_1 in Hrev as [i Hi]. unfold keys in Hi.
        rewrite list_lookup_fmap in Hi.
        destruct (d !! i) as [[k1 v1]|] eqn:Hdi; [|done].
        simpl in Hi. injection Hi as ->.
        by apply (Hlast (S i) (k, v1)); [lia | | ].
      * apply IH. exists i. split; [done|]. intros j kv Hlt Hj.
        apply (Hlast (S j) kv); [lia | done].
  - apply get_None in Hrev. rewrite keys_reverse, elem_of_reverse in Hrev.
    destruct (decide (k = k0)) as [->|Hne].
    + split.
      * intros [= ->]. exists 0%nat. split; [done|].
        intros [|j] [k' v'] Hlt Hj; [lia|]. simpl in *. intros ->.
        apply Hrev. unfold keys. apply list_elem_of_fmap.
        exists (k0, v'). split; [done | by eapply list_elem_of_lookup_2].
      * intros ([|i] & Hi & _); simpl in Hi; [congruence|].
        exfalso. apply Hrev. unfold keys. apply list_elem_of_fmap.
        exists (k0, v). split; [done | by eapply list_elem_of_lookup_2].
    + split; [done|]. intros ([|i] & Hi & _); simpl in Hi; [congruence|].
      exfalso. apply Hrev. unfold keys. apply list_elem_of_fmap.
      exists (k, v). split; [done | by eapply list_elem_of_lookup_2].
Qed.

Lemma get_is_Some_keys k d : is_Some (get k d) ↔ k ∈ keys d.
Proof.
  destruct (get k d) as [v|] eqn:Hget.
  - split; [intros _; by eapply get_Some_keys | by eexists].
  - apply get_None in Hget. split; [by intros [? ?] | done].
Qed.
End dict_order.
End PyDictOrder.

(** ** [vce_api.py]: registration without assumptions on the ids *)
Module VceApiMore.
Import PyDict PyDictFacts PyDictOrder VceApi.

Section register_any.
Variable State : Type.
Variable create_node : State → Z * State.

(** The loop binds every id to the index of the last call that returned
    it; ids bound before the loop keep their binding otherwise. *)
Lemma get_register_loop node_id idxs : ∀ state acc,
  get node_id (register_loop State create_node idxs state acc).1 =
    match get node_id
            (reverse (zip (created_ids State create_node (length idxs) state)
                          idxs)) with
    | Some p => Some p
    | None => get node_id acc
    end.
Proof.
  induction idxs as [|i idxs IH]; intros state acc; simpl; [done|].
  destruct (create_node state) as [id0 state']. simpl.
  rewrite IH, reverse_cons, get_app. simpl.
  destruct (get node_id (reverse _)) as [p|]; [done|].
  destruct (decide (node_id = id0)) as [->|Hne].
  - by rewrite get_set_eq.
  - by rewrite get_set_ne.
Qed.

(** X1: whatever ids [create_node] returns, [_register_nodes] calls it
    once per index, the mapping has pairwise distinct keys, its keys are
    the returned ids, and an id returned more than once is bound to the
    index of the last call that returned it, so the mapping has at most
    [num_nodes] entries. *)
Theorem register_nodes_last_call_wins (num_nodes : Z) (state : State) :
  let n := Z.to_nat num_nodes in
  let ids := created_ids State create_node n state in
  let r := _register_nodes State create_node num_nodes state in
  r.2 = state_after State create_node n state ∧
  NoDup (keys r.1) ∧
  (len r.1 ≤ n)%nat ∧
  (∀ node_id, node_id ∈ keys r.1 ↔ node_id ∈ ids) ∧
  (∀ node_id p, get node_id r.1 = Some p ↔
     ∃ i, p = Z.of_nat i ∧ ids !! i = Some node_id ∧
          ∀ j, (i < j)%nat → ids !! j ≠ Some node_id).
Proof.
  intros n ids r.
  assert (length ids = n) as Hlen_ids
    by apply VceApiProofs.length_created_ids.
  assert (length (range num_nodes) = n) as Hlen_r by apply length_seqZ.
  assert (∀ node_id, get node_id r.1
            = get node_id (reverse (zip ids (range num_nodes)))) as Hget.
  { intros node_id. subst r ids n. unfold _register_nodes.
    rewrite get_register_loop. unfold range. rewrite length_seqZ.
    by destruct (get node_id _). }
  assert (NoDup (keys r.1)) as Hnd.
  { apply VceApiProofs.register_loop_keys_NoDup. apply NoDup_nil_2. }
  assert (∀ node_id, node_id ∈ keys r.1 ↔ node_id ∈ ids) as Hkeys.
  { intros node_id. rewrite <- get_is_Some_keys, Hget, get_is_Some_keys.
    rewrite keys_reverse, elem_of_reverse. unfold keys.
    rewrite fst_zip by lia. done. }
  split_and!.
  - subst r. unfold _register_nodes, range.
    rewrite VceApiProofs.register_loop_state. by rewrite length_seqZ.
  - exact Hnd.
  - unfold len. rewrite <- (length_fmap fst), <- Hlen_ids.
    apply submseteq_length, NoDup_submseteq; [exact Hnd|].
    intros x Hx. by apply Hkeys.
  - exact Hkeys.
  - intros node_id p. rewrite Hget, get_reverse_Some. split.
    + intros (i & Hi & Hlast). apply lookup_zip_Some in Hi as [Hid Hp].
      unfold range in Hp. apply lookup_seqZ in Hp as [-> _].
      exists i. split; [lia|]. split; [done|]. intros j Hlt Hj.
      assert (j < n)%nat as Hjn
        by (apply lookup_lt_Some in Hj; lia).
      apply (Hlast j (node_id, Z.of_nat j)); [done | | done].
      apply lookup_zip_Some. split; [done|].
      unfold range. rewrite lookup_seqZ. lia.
    + intros (i & -> & Hi & Hlast).
      assert (i < n)%nat as Hin by (apply lookup_lt_Some in Hi; lia).
      exists i. split.
      * apply lookup_zip_Some. split; [done|].
        unfold range. rewrite lookup_seqZ. lia.
      * intros j [k' v'] Hlt Hj. apply lookup_zip_Some in Hj as [Hj _].
        simpl. intros ->. by apply (Hlast j).
Qed.
End register_any.

Section start_ok.
Variable State : Type.
Variable create_node : State → Z * State.
Variable NodeState : Type.
Variable NodeState_new : NodeState.
Variable JSON : Type.
Variable json_loads : string → option JSON.

(** X2: with a config that parses, [start_vce] goes on with the mapping
    of [_register_nodes], a [node_states] dict over the same keys and the
    parsed config; it has allocated one [NodeState] object per entry of
    the mapping, and what it did to the state and the heap is what it
    does for any other config string. *)
Theorem start_vce_valid_json (num_supernodes : Z)
    (client_app_str backend_str cfg working_dir : string)
    (state : State) (h : Heap.heap NodeState) (j : JSON) :
  json_loads cfg = Some j →
  let r := start_vce State create_node NodeState NodeState_new JSON json_loads
             num_supernodes client_app_str backend_str cfg state working_dir
             h in
  (∃ locals,
     r.1.1 = inr locals ∧
     backend_config JSON locals = j ∧
     nodes_mapping JSON locals =
       (_register_nodes State create_node num_supernodes state).1 ∧
     keys (node_states JSON locals) = keys (nodes_mapping JSON locals) ∧
     length r.2 = (length h + len (nodes_mapping JSON locals))%nat) ∧
  r.1.2 = state_after State create_node (Z.to_nat num_supernodes) state ∧
  (∀ cfg',
     let r' := start_vce State create_node NodeState NodeState_new JSON
                 json_loads num_supernodes client_app_str backend_str cfg'
                 state working_dir h in
     r'.1.2 = r.1.2 ∧ r'.2 = r.2).
Proof.
  intros Hok r. subst r. unfold start_vce, start_vce_setup in *.
  pose proof (VceApiProofs.register_loop_state State create_node
                (range num_supernodes) state empty) as Hstate.
  pose proof (VceApiProofs.register_loop_keys_NoDup State create_node
                (range num_supernodes) state empty NoDup_nil_2) as Hnd.
  fold (_register_nodes State create_node num_supernodes state)
    in Hstate, Hnd.
  destruct (_register_nodes State create_node num_supernodes state)
    as [nm state'] eqn:Hreg.
  simpl in Hstate, Hnd.
  rewrite (VceApiProofs.node_states_loop_spec NodeState NodeState_new
             (keys nm) empty h) in * by done.
  rewrite Hok. simpl in *. split_and!.
  - eexists. split; [done|]. simpl. split_and!; [done | done | |].
    + unfold keys at 1. by rewrite fst_zip by (by rewrite length_seq).
    + rewrite length_app, length_replicate. unfold keys, len.
      by rewrite length_fmap.
  - rewrite Hstate. unfold range. by rewrite length_seqZ.
  - intros cfg'. by destruct (json_loads cfg').
Qed.
End start_ok.
End VceApiMore.

(** ** [server_app.py]: what the aggregation returns and when it raises *)
Module ServerAppMore.
Import PyDict PyDictFacts PyDictOrder ServerApp ServerAppProofs.

Section aggregate_more.
Context {T ParametersRecord : Type} `{TensorOps T}.
Variable parameters_record_to_state_dict : ParametersRecord → StateDict T.
Abbreviation Msg := (Message ParametersRecord).
Abbreviation aggregate :=
  (aggregate_parameters_from_messages parameters_record_to_state_dict).

Lemma keys_foldl_add_dict (rest : list (StateDict T)) : ∀ D : StateDict T,
  keys (foldl (λ D E, add_dict E D) D rest) = keys D.
Proof.
  induction rest as [|E rest IH]; intros D; [done|]. simpl.
  by rewrite IH, keys_add_dict.
Qed.

Lemma get_foldl_add_dict_any key (rest : list (StateDict T)) :
  ∀ (D : StateDict T) cur,
  get key D = Some cur →
  get key (foldl (λ D E, add_dict E D) D rest) =
    Some (foldl (λ acc sd, match get key sd with
                           | Some value => np_add acc value
                           | None => acc
                           end) cur rest).
Proof.
  induction rest as [|E rest IH]; intros D cur HD; [done|]. simpl.
  apply IH. by rewrite get_add_dict, HD.
Qed.

(** The aggregate when the later state dicts hold no key that the first
    lacks. *)
Lemma aggregate_spec_subset (messages : list Msg) (sd0 : StateDict T)
    (rest : list (StateDict T)) :
  Forall2 (carries parameters_record_to_state_dict) messages (sd0 :: rest) →
  NoDup (keys sd0) →
  Forall (λ sd, NoDup (keys sd) ∧ keys sd ⊆ keys sd0) rest →
  aggregate messages
    = inr (scale_dict (Z.of_nat (S (length rest)))
             (foldl (λ D E, add_dict E D) (add_dict sd0 sd0) rest)).
Proof.
  intros Hall Hnd Hkeys. unfold aggregate_parameters_from_messages.
  rewrite (collect_state_dicts_carries parameters_record_to_state_dict
             messages (sd0 :: rest)) by done.
  cbn [mbind py_bind app length seq lookup list_lookup or_raise].
  cbn [add_state_dicts]. rewrite length_seq.
  change (deref (sd0 :: rest) 0%nat) with sd0. unfold len.
  rewrite (add_items_spec (length sd0) 0 (sd0 :: rest) 0%nat 0%nat sd0 sd0);
    [| by right | by rewrite take_0, add_dict_nil | done | done | done
     | done].
  cbn [mbind py_bind list_insert insert].
  rewrite (add_state_dicts_others (seq 1 (length rest)) rest
             (add_dict sd0 sd0 :: rest) 0%nat (add_dict sd0 sd0)).
  - cbn [mbind py_bind list_insert insert].
    set (total := foldl (λ D E, add_dict E D) (add_dict sd0 sd0) rest).
    change (deref (total :: rest) 0%nat) with total.
    rewrite (average_items_spec total [] (total :: rest) 0%nat);
      [done | done |].
    simpl. subst total. by rewrite keys_foldl_add_dict, keys_add_dict.
  - apply Forall2_same_length_lookup_2; [by rewrite length_seq|].
    intros i d E Hd HE. apply lookup_seq in Hd as [-> _].
    split; [lia | done].
  - eapply Forall_impl; [exact Hkeys|]. intros E [HndE Hsub].
    by rewrite keys_add_dict.
  - done.
  - by rewrite keys_add_dict.
Qed.

(** X3: on error-free replies whose state dicts hold no key that the
    first one lacks, the aggregation returns a state dict with the keys of
    the first reply, in its order; the value of a key is the first
    reply's value counted twice plus the values of the other replies that
    have the key, divided by the number of replies. *)
Theorem aggregate_returns_first_keys (messages : list Msg)
    (sd0 : StateDict T) (rest : list (StateDict T)) :
  Forall2 (carries parameters_record_to_state_dict) messages (sd0 :: rest) →
  NoDup (keys sd0) →
  Forall (λ sd, NoDup (keys sd) ∧ keys sd ⊆ keys sd0) rest →
  ∃ aggregated,
    aggregate messages = inr aggregated ∧
    keys aggregated = keys sd0 ∧
    ∀ key value0, get key sd0 = Some value0 →
      get key aggregated = Some (accumulated key value0 rest).
Proof.
  intros Hall Hnd Hkeys. eexists.
  split; [by apply aggregate_spec_subset|]. split.
  - by rewrite keys_scale_dict, keys_foldl_add_dict, keys_add_dict.
  - intros key value0 Hget. rewrite get_scale_dict.
    erewrite get_foldl_add_dict_any; [done|].
    by rewrite get_add_dict, Hget.
Qed.

(** The inner loop over a dict that holds a key [new_global_dict] lacks. *)
Lemma add_items_missing_key n : ∀ i (h : Heap.heap (StateDict T)) d
    new_global_dict (E D : StateDict T),
  d ≠ new_global_dict → h !! d = Some E →
  h !! new_global_dict = Some (add_dict (take i E) D) →
  NoDup (keys D) → NoDup (keys E) →
  (i + n)%nat = length E →
  (∃ j kv, (i ≤ j)%nat ∧ E !! j = Some kv ∧ kv.1 ∉ keys D) →
  add_items (seq i n) d new_global_dict h = inl KeyError.
Proof.
  induction n as [|n IH];
    intros i h d new E D Hne Hd Hnew HndD HndE Hlen (j & kv & Hij & Hj & Hbad).
  { apply lookup_lt_Some in Hj. lia. }
  assert (is_Some (E !! i)) as [[key value] Hi]
    by (apply lookup_lt_is_Some; lia).
  assert (get key (take i E) = None) as Hseen by (by eapply get_take_None).
  cbn [seq add_items]. unfold deref at 1, Heap.read. rewrite Hd. simpl.
  rewrite Hi. unfold deref at 1 2, Heap.read, Heap.write. rewrite Hnew.
  simpl. rewrite get_add_dict.
  destruct (get key D) as [cur|] eqn:Hcur; [|done]. simpl.
  rewrite Hseen. rewrite add_dict_snoc by done.
  rewrite <- (take_S_r E i (key, value)) by done.
  apply (IH (S i) _ d new E D); try done.
  - by rewrite list_lookup_insert_ne.
  - apply list_lookup_insert_eq. by eapply lookup_lt_Some.
  - lia.
  - exists j, kv. split_and!; [|done|done].
    destruct (decide (i = j)) as [->|]; [|lia].
    exfalso. apply Hbad. rewrite Hi in Hj. injection Hj as <-. simpl.
    by eapply get_Some_keys.
Qed.

Lemma add_state_dicts_app ds1 ds2 new_global_dict
    (h : Heap.heap (StateDict T)) :
  add_state_dicts (ds1 ++ ds2) new_global_dict h =
    add_state_dicts ds1 new_global_dict h
      ≫= add_state_dicts ds2 new_global_dict.
Proof.
  revert h. induction ds1 as [|d ds1 IH]; intros h; simpl; [done|].
  destruct (add_items _ d new_global_dict h) as [e|h']; simpl; [done|].
  apply IH.
Qed.

(** X4: when a reply after the first holds a key that the first reply
    lacks, and the replies before it hold none, the aggregation raises
    [KeyError], whatever the replies after it are. *)
Theorem aggregate_unknown_key_raises (messages : list Msg)
    (sd0 bad : StateDict T) (before after : list (StateDict T)) :
  Forall2 (carries parameters_record_to_state_dict) messages
    (sd0 :: before ++ bad :: after) →
  NoDup (keys sd0) →
  Forall (λ sd, NoDup (keys sd) ∧ keys sd ⊆ keys sd0) before →
  NoDup (keys bad) →
  (∃ key, key ∈ keys bad ∧ key ∉ keys sd0) →
  aggregate messages = inl KeyError.
Proof.
  intros Hall Hnd Hbefore Hndbad (key & Hin & Hout).
  unfold aggregate_parameters_from_messages.
  rewrite (collect_state_dicts_carries parameters_record_to_state_dict
             messages (sd0 :: before ++ bad :: after)) by done.
  cbn [mbind py_bind app length seq lookup list_lookup or_raise].
  rewrite length_app. cbn [length]. rewrite seq_app.
  cbn [add_state_dicts].
  change (deref (sd0 :: before ++ bad :: after) 0%nat) with sd0. unfold len.
  rewrite (add_items_spec (length sd0) 0 (sd0 :: before ++ bad :: after)
             0%nat 0%nat sd0 sd0);
    [| by right | by rewrite take_0, add_dict_nil | done | done | done
     | done].
  cbn [mbind py_bind list_insert insert].
  rewrite add_state_dicts_app.
  rewrite (add_state_dicts_others (seq 1 (length before)) before
             (add_dict sd0 sd0 :: before ++ bad :: after) 0%nat
             (add_dict sd0 sd0)).
  - cbn [mbind py_bind list_insert insert seq add_state_dicts].
    set (total := foldl (λ D E, add_dict E D) (add_dict sd0 sd0) before).
    assert (deref (total :: before ++ bad :: after) (1 + length before)%nat
            = bad) as Hbad.
    { unfold deref, Heap.read. simpl. by rewrite list_lookup_middle. }
    rewrite Hbad. unfold len.
    rewrite (add_items_missing_key (length bad) 0 _ _ 0%nat bad total);
      try done.
    + simpl. by rewrite list_lookup_middle.
    + by rewrite take_0, add_dict_nil.
    + subst total. by rewrite keys_foldl_add_dict, keys_add_dict.
    + unfold keys in Hin. apply list_elem_of_fmap in Hin as (kv & -> & Hkv).
      apply list_elem_of_lookup_1 in Hkv as [j Hj].
      exists j, kv. split_and!; [lia | done |].
      subst total. by rewrite keys_foldl_add_dict, keys_add_dict.
  - apply Forall2_same_length_lookup_2; [by rewrite length_seq|].
    intros i d E Hd HE. apply lookup_seq in Hd as [-> _].
    split; [lia|]. simpl. by apply lookup_app_l_Some.
  - eapply Forall_impl; [exact Hbefore|]. intros E [HndE Hsub].
    by rewrite keys_add_dict.
  - done.
  - by rewrite keys_add_dict.
Qed.

(** X5: when every error-free reply has content and one of them carries
    no ["updated_model_dict"] record, the aggregation raises [KeyError]. *)
Theorem aggregate_missing_record_raises (messages : list Msg) :
  Forall (λ msg, has_error msg = false → is_Some (content msg)) messages →
  Exists (λ msg, has_error msg = false ∧
                 ∃ c, content msg = Some c ∧
                      get "updated_model_dict" (parameters_records c) = None)
    messages →
  aggregate messages = inl KeyError.
Proof.
  intros Hcontent Hmissing. unfold aggregate_parameters_from_messages.
  assert (∀ acc h,
            collect_state_dicts parameters_record_to_state_dict messages
              acc h = inl KeyError) as ->; [|done].
  induction messages as [|msg messages IH]; intros acc h.
  { by apply Exists_nil in Hmissing. }
  apply Forall_cons in Hcontent as [Hmsg Hcontent]. simpl.
  destruct (has_error msg) eqn:Herr.
  - apply IH; [done|].
    apply Exists_cons in Hmissing as [[Hne _]|?]; [congruence | done].
  - destruct (Hmsg eq_refl) as [c Hc]. unfold get_content. rewrite Hc.
    simpl.
    destruct (get "updated_model_dict" (parameters_records c)) as [rec|]
      eqn:Hrec; [|done].
    simpl. apply IH; [done|].
    apply Exists_cons in Hmissing as [(_ & c' & Hc' & Hnone)|?]; [|done].
    congruence.
Qed.
End aggregate_more.
End ServerAppMore.

(** ** [server_app.py]: the messages of a round and the rounds of [main] *)
Module MainMore.
Import PyDict PyDictFacts ServerApp ServerAppProofs.

Section main_more.
Context {T ParametersRecord : Type} `{TensorOps T}.
Variable parameters_record_to_state_dict : ParametersRecord → StateDict T.
Variable state_dict_to_parameters_record : StateDict T → ParametersRecord.
Abbreviation Msg := (Message ParametersRecord).

(** X6: every message [construct_messages] builds is error-free, of the
    requested type, and carries the same record set: the converted global
    model as ["global_model_record"] and a ["config"] record whose ["lr"]
    is 0.1 before round 10 and half of it from round 10 on. *)
Theorem construct_messages_content (global_model : StateDict T)
    (run : Z) (node_ids : list Z) (msg_type : MessageType)
    (server_round : Z) :
  Forall (λ msg : Msg,
            has_error msg = false ∧
            message_type (metadata msg) = msg_type ∧
            ∃ c config,
              content msg = Some c ∧
              get "global_model_record" (parameters_records c) =
                Some (state_dict_to_parameters_record global_model) ∧
              get "config" (configs_records c) = Some config ∧
              get "lr" config =
                Some (if server_round <? 10 then (1 # 10)%Q
                      else ((1 # 10) / 2)%Q))
    (construct_messages state_dict_to_parameters_record global_model run
       node_ids msg_type server_round).
Proof.
  unfold construct_messages. rewrite construct_loop_app. simpl.
  apply Forall_fmap, Forall_forall. intros node_id _. simpl.
  split_and!; [done | done |]. eexists. eexists.
  split_and!; [done | done | done |].
  by destruct (server_round <? 10).
Qed.

Section rounds.
Variable Driver : Type.
Variable driver_run_id : Driver → Z.
Variable get_node_ids : Driver → list Z * Driver.
Variable send_and_receive : Driver → list Msg → list Msg * Driver.

Abbreviation body :=
  (round_body parameters_record_to_state_dict
     state_dict_to_parameters_record Driver driver_run_id get_node_ids
     send_and_receive).
Abbreviation loop :=
  (round_loop parameters_record_to_state_dict
     state_dict_to_parameters_record Driver driver_run_id get_node_ids
     send_and_receive).

Abbreviation round_messages :=
  (ServerApp.round_messages state_dict_to_parameters_record Driver
     driver_run_id get_node_ids).
Abbreviation round_replies :=
  (ServerApp.round_replies state_dict_to_parameters_record Driver
     driver_run_id get_node_ids send_and_receive).

(** One iteration, by the outcome of its aggregation. *)
Lemma round_body_outcome server_round st :
  let replies := (round_replies server_round st).1 in
  let n_messages := length (round_messages server_round st) in
  match aggregate_parameters_from_messages parameters_record_to_state_dict
          replies with
  | inl e =>
      body server_round st =
        ({| driver := (round_replies server_round st).2;
            global_model := global_model Driver st;
            trace := trace Driver st ++
                     round_events server_round (length replies) n_messages
                       false |}, Some e)
  | inr updated =>
      body server_round st =
        ({| driver := (round_replies server_round st).2;
            global_model := updated;
            trace := trace Driver st ++
                     round_events server_round (length replies) n_messages
                       true |}, None)
  end.
Proof.
  unfold ServerApp.round_replies, ServerApp.round_messages, round_body.
  destruct (get_node_ids (driver Driver st)) as [node_ids drv]. simpl.
  destruct (send_and_receive drv _) as [replies drv']. simpl.
  destruct (aggregate_parameters_from_messages _ replies) as [e|updated];
    by rewrite <- !app_assoc.
Qed.

(** X7: a round whose rendezvous returns no reply or only replies with an
    error ends the loop with [IndexError]: the global model stays as it
    was before the round, and no later round is started. *)
Theorem round_without_results_stops (server_round : Z) (rounds : list Z)
    (st : MainState Driver) :
  let replies := (round_replies server_round st).1 in
  Forall (λ msg, has_error msg = true) replies →
  let res := loop (server_round :: rounds) st in
  res.2 = Some IndexError ∧
  global_model Driver res.1 = global_model Driver st ∧
  driver Driver res.1 = (round_replies server_round st).2 ∧
  trace Driver res.1 =
    trace Driver st ++
    round_events server_round (length replies)
      (length (round_messages server_round st)) false.
Proof.
  intros replies Hall res. subst res. simpl.
  pose proof (round_body_outcome server_round st) as Hbody. simpl in Hbody.
  fold replies in Hbody.
  assert (aggregate_parameters_from_messages
            parameters_record_to_state_dict replies = inl IndexError) as Hagg.
  { rewrite aggregate_error_free.
    assert (error_free replies = []) as ->; [|done].
    unfold error_free. clear Hbody.
    induction Hall as [|msg l Herr _ IH]; [done|].
    rewrite filter_cons_False by congruence. done. }
  rewrite Hagg in Hbody. rewrite Hbody. done.
Qed.

(** A loop that ends without an exception has completed every round. *)
Lemma round_loop_completed rounds : ∀ st,
  (loop rounds st).2 = None →
  ∃ counts : list (nat * nat),
    length counts = length rounds ∧
    trace Driver (loop rounds st).1 =
      trace Driver st ++
      concat (zip_with (λ r c, round_events r c.1 c.2 true) rounds counts).
Proof.
  induction rounds as [|r rounds IH]; intros st Hnone.
  { exists []. simpl. by rewrite app_nil_r. }
  simpl in *. pose proof (round_body_outcome r st) as Hbody.
  simpl in Hbody.
  destruct (aggregate_parameters_from_messages _ _) as [e|updated];
    rewrite Hbody in *; [done|].
  simpl in *. destruct (IH _ Hnone) as (counts & Hlen & Htr).
  eexists ((_, _) :: counts). simpl. split; [by rewrite Hlen|].
  rewrite Htr. simpl. by rewrite <- !app_assoc.
Qed.

(** X8: when the round loop of [main] ends without an exception, it has
    run exactly the rounds [0, 1, ..., num_rounds - 1], in this order and
    each to its end: every round made its calls once and in program
    order, from the log line and [get_node_ids] to the central test. *)
Theorem main_normal_return_trace (drv : Driver) (num_rounds : Z)
    (net : StateDict T) :
  let res :=
    main parameters_record_to_state_dict state_dict_to_parameters_record
      Driver driver_run_id get_node_ids send_and_receive drv num_rounds net in
  res.2 = None →
  ∃ counts : list (nat * nat),
    length counts = Z.to_nat num_rounds ∧
    trace Driver res.1 =
      concat (zip_with (λ r c, round_events r c.1 c.2 true)
                (range num_rounds) counts).
Proof.
  intros res Hnone. subst res. unfold main in *.
  destruct (round_loop_completed (range num_rounds) _ Hnone)
    as (counts & Hlen & Htr).
  exists counts. split; [|exact Htr].
  rewrite Hlen. unfold range. apply length_seqZ.
Qed.
End rounds.
End main_more.
End MainMore.

(** ** [build-docker-image-matrix.py]: base images and repositories *)
Module DockerMatrixMore.
Import DockerMatrix.

Lemma comprehension_Forall2 {A B} (f : A → PyError + B) (l : list A) :
  Forall (λ x, ∃ y, f x = inr y) l →
  ∃ ys, comprehension f l = inr ys ∧ Forall2 (λ x y, f x = inr y) l ys.
Proof.
  induction 1 as [|x l [y Hy] _ (ys & Hys & Hall)]; simpl.
  - by exists [].
  - exists (y :: ys). rewrite Hy, Hys. split; [done | by constructor].
Qed.

Lemma length_product {A B} (l : list A) (k : list B) :
  length (x ← l; y ← k; [(x, y)]) = (length l * length k)%nat.
Proof.
  induction l as [|x l IH]; [done|].
  rewrite bind_cons, length_app, IH. simpl. f_equal.
  clear. induction k as [|y k IH]; [done|].
  rewrite bind_cons. simpl. by rewrite IH.
Qed.

(** The variants of the three tables build their directory and tag for
    every version. *)
Lemma table_variant_ok (v : Variant) (flwr python : string) :
  v ∈ UBUNTU_VARIANTS ++ ALPINE_VARIANTS ++ CUDA_VARIANTS →
  ∃ d t, file_dir v = inr d ∧ tag v flwr python = inr t.
Proof.
  intros Hin. cbn in Hin.
  repeat (apply elem_of_cons in Hin as [->|Hin]; [by eexists _, _|]).
  by apply elem_of_nil in Hin.
Qed.

(** X9: on variants taken from the three tables, [generate_base_images]
    raises nothing and returns one base image per variant and Python
    version, the versions of a variant next to each other in the order
    given; every image records the Flower version and the directory and
    tag its variant builds. *)
Theorem generate_base_images_product (flwr : string)
    (python_versions : list string) (variants : list Variant) :
  variants ⊆ UBUNTU_VARIANTS ++ ALPINE_VARIANTS ++ CUDA_VARIANTS →
  ∃ images,
    generate_base_images flwr python_versions variants = inr images ∧
    (λ image, (variant image, python_version image)) <$> images =
      (v ← variants; p ← python_versions; [(v, p)]) ∧
    length images = (length variants * length python_versions)%nat ∧
    Forall (λ image,
              flwr_version image = flwr ∧
              base_namespace_repository image = "flwr/base" ∧
              file_dir (variant image) = inr (base_file_dir image) ∧
              tag (variant image) flwr (python_version image) =
                inr (base_tag image)) images.
Proof.
  intros Hsub. unfold generate_base_images.
  set (pairs := v ← variants; p ← python_versions; [(v, p)]).
  assert (Forall (λ vp : Variant * string, vp.1 ∈ variants) pairs) as Hpairs.
  { apply Forall_forall. intros [v p] Hin. subst pairs.
    apply list_elem_of_bind in Hin as (v' & Hin & Hv').
    apply list_elem_of_bind in Hin as (p' & Hin & _).
    apply list_elem_of_singleton in Hin. by injection Hin as -> ->. }
  destruct (comprehension_Forall2
              (λ '(v, p), new_base_image flwr p v) pairs)
    as (images & Himages & Hall).
  { eapply Forall_impl; [exact Hpairs|]. intros [v p] Hin. simpl in Hin.
    destruct (table_variant_ok v flwr p (Hsub _ Hin)) as (d & t & Hd & Ht).
    unfold new_base_image. rewrite Hd, Ht. by eexists. }
  exists images. split; [exact Himages|].
  assert ((λ image, (variant image, python_version image)) <$> images
          = pairs) as Hshape.
  { clear -Hall. induction Hall as [|[v p] image l k Himg _ IH]; [done|].
    rewrite fmap_cons, IH. f_equal. unfold new_base_image in Himg.
    destruct (file_dir v); [done|]. destruct (tag v flwr p); [done|].
    simpl in Himg. by injection Himg as <-. }
  split; [exact Hshape|]. split.
  - rewrite <- (length_fmap (λ image, (variant image, python_version image))),
      Hshape. apply length_product.
  - clear -Hall. induction Hall as [|[v p] image l k Himg _ IH]; [done|].
    constructor; [|exact IH]. unfold new_base_image in Himg.
    destruct (file_dir v) as [|d] eqn:Hd; [done|].
    destruct (tag v flwr p) as [|t] eqn:Ht; [done|].
    simpl in Himg. injection Himg as <-. simpl. by rewrite Hd, Ht.
Qed.

Lemma generate_binary_images_kept name images tags_fn filter :
  generate_binary_images name images tags_fn (Some filter) =
    (λ image, new_binary_image name image tags_fn) <$> kept filter images.
Proof.
  unfold generate_binary_images, kept. simpl.
  induction images as [|image images IH]; [done|].
  rewrite bind_cons, IH. simpl.
  by destruct (truthy (filter image)).
Qed.

Lemma kept_sublist filter images : kept filter images `sublist_of` images.
Proof.
  unfold kept. induction images as [|image images IH]; [done|]. simpl.
  destruct (truthy (filter image)); by constructor.
Qed.

Lemma base_tags_main (flwr : string) :
  ∃ images, base_images flwr = inr images ∧
            base_tag <$> images = (λ suffix, flwr +:+ suffix) <$> tag_suffixes.
Proof. eexists. split; reflexivity. Qed.

(** X10: for every Flower version the base images of the main block have
    pairwise distinct tags, so within a repository, whatever its tag
    function and filter, no two binary images are built on the same base
    tag. *)
Theorem base_tags_distinct (flwr : string) :
  ∃ images,
    base_images flwr = inr images ∧
    NoDup (base_tag <$> images) ∧
    ∀ name tags_fn filter,
      NoDup (base_image <$>
               generate_binary_images name images tags_fn (Some filter)).
Proof.
  destruct (base_tags_main flwr) as (images & Himages & Htags).
  exists images. split; [exact Himages|].
  assert (NoDup (base_tag <$> images)) as Hnd.
  { rewrite Htags. apply (NoDup_fmap_2 _).
    apply (bool_decide_unpack _). vm_compute. exact I. }
  split; [exact Hnd|]. intros name tags_fn filter.
  rewrite generate_binary_images_kept, <- list_fmap_compose.
  eapply sublist_NoDup; [exact Hnd|].
  change (base_image ∘ _) with base_tag.
  apply fmap_sublist, kept_sublist.
Qed.

Lemma binary_images_repositories images :
  binary_images images =
    ('(name, tags_fn, filter) ← repositories;
     generate_binary_images name images (Some tags_fn) (Some filter)).
Proof.
  unfold binary_images, supernode_images, repositories.
  rewrite !bind_cons. simpl. by rewrite app_nil_r.
Qed.

(** X11: for every Flower version the matrix of the main block holds 60
    binary images: 2 for superlink, 19 for supernode, 18 each for
    serverapp and clientapp and 3 for superexec.  In each repository the
    tag function returns the Flower version as a second tag for one of
    the images kept: the Alpine Python 3.11 image for superlink and
    supernode, the Ubuntu Python 3.11 CPU image for the others. *)
Theorem matrix_repositories (flwr : string) :
  ∃ images,
    base_images flwr = inr images ∧
    length (binary_images images) = 60%nat ∧
    (λ '(name, tags_fn, filter),
       (name,
        length (generate_binary_images name images (Some tags_fn)
                  (Some filter)),
        flavour <$>
          List.filter (λ image, (length (tags_fn image) =? 2)%nat)
            (kept filter images))) <$> repositories =
    [ ("superlink", 2%nat, [(ALPINE, Some CpuVariant, "3.11")]);
      ("supernode", 19%nat, [(ALPINE, Some CpuVariant, "3.11")]);
      ("serverapp", 18%nat, [(UBUNTU, Some CpuVariant, "3.11")]);
      ("superexec", 3%nat, [(UBUNTU, Some CpuVariant, "3.11")]);
      ("clientapp", 18%nat, [(UBUNTU, Some CpuVariant, "3.11")]) ].
Proof.
  eexists. split; [reflexivity|]. split; reflexivity.
Qed.
End DockerMatrixMore.

(** ** The further properties on concrete inputs *)
Module MoreInstances.
Import PyDict ServerApp ScalarApp DockerMatrix.

Lemma carries_reply src (sd : StateDict Q) : carries id (reply src sd) sd.
Proof. split; [done|]. by eexists _, _. Qed.

(** A config that parses, after two registrations. *)
Lemma start_vce_valid_json_witness :
  Json.loads "{}" = Some (Json.JObject []) ∧
  let r :=
    VceApi.start_vce _ NodeRegistry.register unit tt _ Json.loads 2
      "app:app" "ray" "{}" NodeRegistry.empty "." [] in
  (∃ locals,
     r.1.1 = inr locals ∧
     VceApi.backend_config _ locals = Json.JObject [] ∧
     length r.2 = (length (@nil unit)
                   + len (VceApi.nodes_mapping _ locals))%nat) ∧
  r.1.2 = VceApi.state_after _ NodeRegistry.register (Z.to_nat 2)
            NodeRegistry.empty.
Proof.
  assert (Json.loads "{}" = Some (Json.JObject [])) as Hok
    by (vm_compute; reflexivity).
  split; [exact Hok|].
  pose proof (VceApiMore.start_vce_valid_json _ NodeRegistry.register unit tt
                _ Json.loads 2 "app:app" "ray" "{}" "." NodeRegistry.empty []
                (Json.JObject []) Hok) as ((locals & H1 & H2 & _ & _ & H5)
                                           & H6 & _).
  split; [|exact H6]. exists locals. split; [exact H1|].
  split; [exact H2 | exact H5].
Defined.

(** Two replies, the second without the key ["b"]. *)
Lemma aggregate_returns_first_keys_witness :
  Forall2 (carries id)
    [reply 1 [("w", 1%Q); ("b", 4%Q)]; reply 2 [("w", 3%Q)]]
    [[("w", 1%Q); ("b", 4%Q)]; [("w", 3%Q)]] ∧
  NoDup (keys [("w", 1%Q); ("b", 4%Q)]) ∧
  Forall (λ sd : StateDict Q,
            NoDup (keys sd) ∧ keys sd ⊆ keys [("w", 1%Q); ("b", 4%Q)])
    [[("w", 3%Q)]] ∧
  ∃ aggregated,
    aggregate [reply 1 [("w", 1%Q); ("b", 4%Q)]; reply 2 [("w", 3%Q)]]
      = inr aggregated ∧
    keys aggregated = keys [("w", 1%Q); ("b", 4%Q)] ∧
    ∀ key value0, get key [("w", 1%Q); ("b", 4%Q)] = Some value0 →
      get key aggregated = Some (accumulated key value0 [[("w", 3%Q)]]).
Proof.
  assert (Forall2 (carries id)
            [reply 1 [("w", 1%Q); ("b", 4%Q)]; reply 2 [("w", 3%Q)]]
            [[("w", 1%Q); ("b", 4%Q)]; [("w", 3%Q)]]) as Hall
    by (repeat constructor; apply carries_reply).
  assert (NoDup (keys [("w", 1%Q); ("b", 4%Q)])) as Hnd
    by (apply (bool_decide_unpack _); vm_compute; exact I).
  assert (Forall (λ sd : StateDict Q,
            NoDup (keys sd) ∧ keys sd ⊆ keys [("w", 1%Q); ("b", 4%Q)])
            [[("w", 3%Q)]]) as Hrest.
  { apply Forall_singleton. split.
    - apply (bool_decide_unpack _). vm_compute. exact I.
    - intros key Hkey. apply list_elem_of_singleton in Hkey as ->.
      apply list_elem_of_here. }
  split; [exact Hall|]. split; [exact Hnd|]. split; [exact Hrest|].
  apply (ServerAppMore.aggregate_returns_first_keys id _ _ _ Hall Hnd Hrest).
Defined.

(** A second reply with a key the first lacks. *)
Lemma aggregate_unknown_key_raises_witness :
  Forall2 (carries id) [reply 1 [("w", 1%Q)]; reply 2 [("v", 3%Q)]]
    ([("w", 1%Q)] :: [] ++ [("v", 3%Q)] :: []) ∧
  NoDup (keys [("w", 1%Q)]) ∧
  NoDup (keys [("v", 3%Q)]) ∧
  (∃ key, key ∈ keys [("v", 3%Q)] ∧ key ∉ keys [("w", 1%Q)]) ∧
  aggregate [reply 1 [("w", 1%Q)]; reply 2 [("v", 3%Q)]] = inl KeyError.
Proof.
  assert (Forall2 (carries id) [reply 1 [("w", 1%Q)]; reply 2 [("v", 3%Q)]]
            ([("w", 1%Q)] :: [] ++ [("v", 3%Q)] :: [])) as Hall
    by (repeat constructor; apply carries_reply).
  assert (NoDup (keys [("w", 1%Q)])) as Hnd
    by (apply (bool_decide_unpack _); vm_compute; exact I).
  assert (NoDup (keys [("v", 3%Q)])) as Hndbad
    by (apply (bool_decide_unpack _); vm_compute; exact I).
  assert (∃ key, key ∈ keys [("v", 3%Q)] ∧ key ∉ keys [("w", 1%Q)])
    as Hkey.
  { exists "v". split; [apply list_elem_of_here|].
    intros Hin. apply list_elem_of_singleton in Hin. discriminate. }
  split; [exact Hall|]. split; [exact Hnd|]. split; [exact Hndbad|].
  split; [exact Hkey|].
  apply (ServerAppMore.aggregate_unknown_key_raises id _ [("w", 1%Q)]
           [("v", 3%Q)] [] [] Hall Hnd (Forall_nil_2 _) Hndbad Hkey).
Defined.

(** A reply without the record after a good one. *)
Lemma aggregate_missing_record_raises_witness :
  Forall (λ msg : Message (StateDict Q),
            has_error msg = false → is_Some (content msg))
    [reply 1 [("w", 1%Q)]; reply_without_record 2] ∧
  Exists (λ msg : Message (StateDict Q),
            has_error msg = false ∧
            ∃ c, content msg = Some c ∧
                 get "updated_model_dict" (parameters_records c) = None)
    [reply 1 [("w", 1%Q)]; reply_without_record 2] ∧
  aggregate [reply 1 [("w", 1%Q)]; reply_without_record 2] = inl KeyError.
Proof.
  assert (Forall (λ msg : Message (StateDict Q),
            has_error msg = false → is_Some (content msg))
            [reply 1 [("w", 1%Q)]; reply_without_record 2]) as Hcontent
    by (repeat constructor; intros _; by eexists).
  assert (Exists (λ msg : Message (StateDict Q),
            has_error msg = false ∧
            ∃ c, content msg = Some c ∧
                 get "updated_model_dict" (parameters_records c) = None)
            [reply 1 [("w", 1%Q)]; reply_without_record 2]) as Hmissing.
  { apply Exists_cons_tl, Exists_cons_hd. split; [done|]. by eexists. }
  split; [exact Hcontent|]. split; [exact Hmissing|].
  apply (ServerAppMore.aggregate_missing_record_raises id _ Hcontent
           Hmissing).
Defined.

(** A first round in which no node replies. *)
Lemma round_without_results_stops_witness :
  let st : MainState nat :=
    {| driver := O; global_model := [("w", 1%Q)]; trace := [] |} in
  let replies :=
    (round_replies id nat (λ _, 1) echo_get_node_ids
       silent_send_and_receive 0 st).1 in
  Forall (λ msg, has_error msg = true) replies ∧
  let res :=
    round_loop id id nat (λ _, 1) echo_get_node_ids silent_send_and_receive
      [0; 1] st in
  res.2 = Some IndexError ∧
  global_model nat res.1 = [("w", 1%Q)] ∧
  trace nat res.1 = round_events 0 0 2 false.
Proof.
  intros st replies.
  assert (Forall (λ msg, has_error msg = true) replies) as Hall
    by (subst replies; vm_compute; constructor).
  split; [exact Hall|].
  pose proof (MainMore.round_without_results_stops id id nat (λ _, 1)
                echo_get_node_ids silent_send_and_receive 0 [1] st Hall)
    as (H1 & H2 & _ & H4).
  split; [exact H1|]. split; [exact H2 | exact H4].
Defined.

(** Two rounds with the echo driver. *)
Lemma main_normal_return_trace_witness :
  (echo_main 2 [("w", 1%Q)]).2 = None ∧
  ∃ counts : list (nat * nat),
    length counts = Z.to_nat 2 ∧
    trace nat (echo_main 2 [("w", 1%Q)]).1 =
      concat (zip_with (λ r c, round_events r c.1 c.2 true) (range 2)
                counts).
Proof.
  assert ((echo_main 2 [("w", 1%Q)]).2 = None) as Hnone
    by (vm_compute; reflexivity).
  split; [exact Hnone|].
  apply (MainMore.main_normal_return_trace id id nat (λ _, 1)
           echo_get_node_ids echo_send_and_receive O 2 [("w", 1%Q)] Hnone).
Defined.

(** The rendezvous on three requests: the nodes 1 and 2 pull and reply
    during the first tick, node 3 never pulls. *)
Lemma rendezvous_two_of_three :
  let reqs :=
    (λ node, {| TaskStore.req_run_id := 1; TaskStore.req_group_id := "r1";
                TaskStore.req_dst := node;
                TaskStore.req_kind := TaskStore.Train;
                TaskStore.req_payload := "p" |}) <$> [1; 2; 3] in
  let world (t : nat) :=
    match t with
    | O => [TaskStore.Pull 1; TaskStore.Pull 2;
            TaskStore.Submit 0 (TaskStore.Result "ra");
            TaskStore.Submit 1 (TaskStore.Error "boom")]
    | _ => []
    end in
  let r := TaskStore.send_and_receive reqs 100 0 world [] in
  r.1 = [Some (TaskStore.Result "ra"); Some (TaskStore.Error "boom"); None] ∧
  TaskStore.status <$> r.2 =
    [TaskStore.Replied "ra"; TaskStore.Errored "boom"; TaskStore.TimedOut].
Proof. split; vm_compute; reflexivity. Qed.

(** The CUDA table with one Python version. *)
Lemma generate_base_images_product_witness :
  CUDA_VARIANTS ⊆ UBUNTU_VARIANTS ++ ALPINE_VARIANTS ++ CUDA_VARIANTS ∧
  ∃ images,
    generate_base_images "1.13.0" ["3.9"] CUDA_VARIANTS = inr images ∧
    length images = (length CUDA_VARIANTS * length ["3.9"])%nat.
Proof.
  assert (CUDA_VARIANTS
            ⊆ UBUNTU_VARIANTS ++ ALPINE_VARIANTS ++ CUDA_VARIANTS) as Hsub.
  { intros v Hv. apply elem_of_app. right. apply elem_of_app. by right. }
  split; [exact Hsub|].
  destruct (DockerMatrixMore.generate_base_images_product "1.13.0" ["3.9"]
              CUDA_VARIANTS Hsub) as (images & H1 & _ & H3 & _).
  exists images. split; [exact H1 | exact H3].
Defined.
End MoreInstances.
